(** * Bluetooth mesh chat server: routing engine of [server.py]

    A shallow embedding of [BluetoothMeshChatServer] (src/server.py) and the
    properties of its routing table, message processor and peer registry.

    Modelling choices.
    - Python [dict] is insertion ordered: a dictionary is an association list
      read and written through [dict_get] and [dict_set] (write in place when
      the key is present, append otherwise).
    - [Message] objects are shared between the message store, the queue and
      the processor, and are mutated in place ([ttl], [route]): they live in
      a heap and are passed by reference.
    - A Python [set] is kept as the list of its elements in iteration order.
    - Dataclass fields declared with default [None] ([Peer.neighbors],
      [Message.route]) are options.
    - [time.time()] and [uuid.uuid4()] are inputs of the operation that
      calls them; a clock reading is an integer number of time units.
    - Every method runs in a state-and-exception monad; the state written
      before an exception is raised is kept, as in Python.
    - Calls to [logger] are recorded in an event log. *)

From stdpp Require Import base option list strings sets.
From Stdlib Require Import ZArith Lia.

Local Open Scope string_scope.
Local Open Scope Z_scope.

(** ** Python dictionaries *)

Section Dict.
Context {V : Type}.

Definition dict := list (string * V).

Fixpoint dict_get (d : dict) (k : string) : option V :=
    match d with
    | [] => None
    | (k', v) :: d' => if String.eqb k' k then Some v else dict_get d' k
    end.

Fixpoint dict_set (d : dict) (k : string) (v : V) : dict :=
    match d with
    | [] => [(k, v)]
    | (k', v') :: d' =>
        if String.eqb k' k then (k, v) :: d' else (k', v') :: dict_set d' k v
    end.

Definition dict_mem (k : string) (d : dict) : bool :=
    match dict_get d k with Some _ => true | None => false end.

Definition dict_keys (d : dict) : list string := map fst d.
End Dict.

Arguments dict V : clear implicits.

(** ** Data model (server.py, lines 14-39) *)

Inductive MessageType : Type :=
  | TEXT | SYSTEM | ROUTE_UPDATE | PEER_DISCOVERY | ACK.

Module Peer.
Record t : Type := mk {
    id : string;
    name : string;
    address : string;
    last_seen : Z;
    is_online : bool;
    neighbors : option (list string)
  }.

Definition set_name (v : string) (p : t) : t :=
    mk (id p) v (address p) (last_seen p) (is_online p) (neighbors p).
Definition set_address (v : string) (p : t) : t :=
    mk (id p) (name p) v (last_seen p) (is_online p) (neighbors p).
Definition set_last_seen (v : Z) (p : t) : t :=
    mk (id p) (name p) (address p) v (is_online p) (neighbors p).
Definition set_is_online (v : bool) (p : t) : t :=
    mk (id p) (name p) (address p) (last_seen p) v (neighbors p).
End Peer.

(** The content of a message is a Python string.  The one place where it is
    computed rather than copied is the discovery announcement, whose content
    is [json.dumps] of the peer snapshot: the serialised text is kept as the
    snapshot it encodes. *)
Inductive Content : Type :=
  | Str (s : string)
  | PeersJson (snapshot : list Peer.t).

Module Message.
Record t : Type := mk {
    id : string;
    sender_id : string;
    recipient_id : option string;
    message_type : MessageType;
    content : Content;
    timestamp : Z;
    ttl : Z;
    route : option (list string)
  }.

Definition set_ttl (v : Z) (m : t) : t :=
    mk (id m) (sender_id m) (recipient_id m) (message_type m) (content m)
       (timestamp m) v (route m).
Definition set_route (v : option (list string)) (m : t) : t :=
    mk (id m) (sender_id m) (recipient_id m) (message_type m) (content m)
       (timestamp m) (ttl m) v.
End Message.

(** The default of the dataclass field [ttl]. *)
Definition default_ttl : Z := 10.

(** A reference to a [Message] object: its index in the heap. *)
Abbreviation ref := nat.

(** The calls to [logger], in program order. *)
Inductive Event : Type :=
  | LogInitialized (server_id : string)
  | LogStarting
  | LogStarted
  | LogStopped
  | LogUpdatedPeer (name peer_id : string)
  | LogRegisteredPeer (name peer_id : string)
  | LogUnregisteredPeer (name peer_id : string)
  | LogMessageQueued (sender_id recipient_id : string)
  | LogBroadcastQueued (sender_id : string)
  | LogTTLExpired (message_id : string)
  | LogNoRoute (recipient_id : string)
  | LogForwarding (message_id next_hop : string)
  | LogReceived (sender_id : string) (content : Content)
  | LogPeerTimedOut (name peer_id : string)
  | LogProcessorError.

Record Server : Type := mkServer {
  server_id : string;
  server_name : string;
  peers : dict Peer.t;
  heap : list Message.t;
  messages : dict ref;
  routing_table : dict (dict Z);
  message_queue : list ref;
  running : bool;
  log : list Event
}.

Definition set_peers (v : dict Peer.t) (s : Server) : Server :=
  mkServer (server_id s) (server_name s) v (heap s) (messages s)
           (routing_table s) (message_queue s) (running s) (log s).
Definition set_heap (v : list Message.t) (s : Server) : Server :=
  mkServer (server_id s) (server_name s) (peers s) v (messages s)
           (routing_table s) (message_queue s) (running s) (log s).
Definition set_messages (v : dict ref) (s : Server) : Server :=
  mkServer (server_id s) (server_name s) (peers s) (heap s) v
           (routing_table s) (message_queue s) (running s) (log s).
Definition set_routing_table (v : dict (dict Z)) (s : Server) : Server :=
  mkServer (server_id s) (server_name s) (peers s) (heap s) (messages s)
           v (message_queue s) (running s) (log s).
Definition set_message_queue (v : list ref) (s : Server) : Server :=
  mkServer (server_id s) (server_name s) (peers s) (heap s) (messages s)
           (routing_table s) v (running s) (log s).
Definition set_running (v : bool) (s : Server) : Server :=
  mkServer (server_id s) (server_name s) (peers s) (heap s) (messages s)
           (routing_table s) (message_queue s) v (log s).
Definition set_log (v : list Event) (s : Server) : Server :=
  mkServer (server_id s) (server_name s) (peers s) (heap s) (messages s)
           (routing_table s) (message_queue s) (running s) v.

(** ** The monad of server methods *)

(** [InvalidRef] belongs to the model only: a reference that is not in the
    heap, which no Python program can hold. *)
Inductive exn : Type :=
  | KeyError (k : string)
  | ValueError
  | TypeError
  | InvalidRef.

Inductive result (A : Type) : Type :=
  | Ok (a : A)
  | Raise (e : exn).
Arguments Ok {A} a.
Arguments Raise {A} e.

Definition M (A : Type) : Type := Server -> result A * Server.

Definition ret {A} (a : A) : M A := fun s => (Ok a, s).
Definition raise {A} (e : exn) : M A := fun s => (Raise e, s).
Definition bind {A B} (m : M A) (k : A -> M B) : M B :=
  fun s => match m s with
           | (Ok a, s') => k a s'
           | (Raise e, s') => (Raise e, s')
           end.
Definition get : M Server := fun s => (Ok s, s).
Definition modify (f : Server -> Server) : M unit := fun s => (Ok tt, f s).

Declare Scope py_scope.
Delimit Scope py_scope with py.
Notation "x <- m ;; k" := (bind m (fun x => k))
  (at level 100, m at next level, right associativity) : py_scope.
Notation "m ;;; k" := (bind m (fun _ => k))
  (at level 100, right associativity) : py_scope.
Local Open Scope py_scope.

(** [for x in l: body x] *)
Fixpoint for_each {A} (l : list A) (body : A -> M unit) : M unit :=
  match l with
  | [] => ret tt
  | x :: l' => body x ;;; for_each l' body
  end.

Definition emit (e : Event) : M unit :=
  modify (fun s => set_log (log s ++ [e])%list s).

(** Truth value of a string and of an [Optional[str]]. *)
Definition truthy (x : string) : bool := negb (String.eqb x "").
Definition truthy_opt (x : option string) : bool :=
  match x with Some v => truthy v | None => false end.

(** [self.peers[k]] *)
Definition peers_at (k : string) : M Peer.t :=
  s <- get ;;
  match dict_get (peers s) k with
  | Some p => ret p
  | None => raise (KeyError k)
  end.

(** [self.routing_table[k]] *)
Definition routing_table_at (k : string) : M (dict Z) :=
  s <- get ;;
  match dict_get (routing_table s) k with
  | Some c => ret c
  | None => raise (KeyError k)
  end.

(** Iterating over [peer.neighbors], which is a set or [None]. *)
Definition iter_neighbors (p : Peer.t) : M (list string) :=
  match Peer.neighbors p with
  | Some ns => ret ns
  | None => raise TypeError
  end.

(** Dereference of a message object. *)
Definition deref (r : ref) : M Message.t :=
  s <- get ;;
  match heap s !! r with
  | Some m => ret m
  | None => raise InvalidRef
  end.

Definition update_message (r : ref) (f : Message.t -> Message.t) : M unit :=
  m <- deref r ;;
  modify (fun s => set_heap (<[r := f m]> (heap s)) s).

(** Construction of a new message object. *)
Definition alloc (m : Message.t) : M ref :=
  s <- get ;;
  modify (set_heap (heap s ++ [m])%list) ;;;
  ret (length (heap s)).

(** ** Next-hop selection (server.py, lines 229-234) *)

(** [min(items, key=lambda x: x[1])]: the first item of least cost;
    [None] stands for the [ValueError] of an empty sequence. *)
Fixpoint min_by_cost_from (best : string * Z) (items : list (string * Z))
  : string * Z :=
  match items with
  | [] => best
  | x :: items' =>
      if snd x <? snd best then min_by_cost_from x items'
      else min_by_cost_from best items'
  end.

Definition min_by_cost (items : list (string * Z)) : option (string * Z) :=
  match items with
  | [] => None
  | x :: items' => Some (min_by_cost_from x items')
  end.

Definition _get_next_hop (destination : string) : M (option string) :=
  s <- get ;;
  match dict_get (routing_table s) destination with
  | Some candidates =>
      match min_by_cost candidates with
      | Some x => ret (Some (fst x))
      | None => raise ValueError
      end
  | None => ret None
  end.

(** ** Routing-table recomputation (server.py, lines 236-267) *)

Definition store_routes (k : string) (c : dict Z) : M unit :=
  modify (fun s => set_routing_table (dict_set (routing_table s) k c) s).

(** [cost < min_cost], where [None] is the initial [float('inf')]. *)
Definition cost_below (cost : Z) (best : option (Z * string)) : bool :=
  match best with
  | None => true
  | Some (min_cost, _) => cost <? min_cost
  end.

(** The scan of lines 258-264.  [min_cost] and [best_neighbor] are assigned
    together: [None] is their initial value [(inf, None)]. *)
Fixpoint best_relay (ns : list string) (best : option (Z * string))
  : M (option (Z * string)) :=
  match ns with
  | [] => ret best
  | neighbor_id :: ns' =>
      p <- peers_at neighbor_id ;;
      if Peer.is_online p then
        let cost := 2 in
        if cost_below cost best
        then best_relay ns' (Some (cost, neighbor_id))
        else best_relay ns' best
      else best_relay ns' best
  end.

Definition _update_routing_table : M unit :=
  s0 <- get ;;
  let self_id := server_id s0 in
  (* Initialize routing table *)
  for_each (dict_keys (peers s0)) (fun peer_id =>
    if negb (String.eqb peer_id self_id)
    then store_routes peer_id []
    else ret tt) ;;;
  (* Direct neighbors have cost 1 *)
  self <- peers_at self_id ;;
  ns <- iter_neighbors self ;;
  for_each ns (fun neighbor_id =>
    p <- peers_at neighbor_id ;;
    if Peer.is_online p then
      c <- routing_table_at neighbor_id ;;
      store_routes neighbor_id (dict_set c neighbor_id 1)
    else ret tt) ;;;
  (* For other peers, find shortest path *)
  for_each (dict_keys (peers s0)) (fun peer_id =>
    if negb (String.eqb peer_id self_id) then
      self <- peers_at self_id ;;
      ns <- iter_neighbors self ;;
      if negb (bool_decide (peer_id ∈ ns)) then
        (* Find shortest path through neighbors *)
        self <- peers_at self_id ;;
        ns <- iter_neighbors self ;;
        best <- best_relay ns None ;;
        match best with
        | Some (min_cost, best_neighbor) =>
            if truthy best_neighbor then
              c <- routing_table_at peer_id ;;
              store_routes peer_id (dict_set c best_neighbor min_cost)
            else ret tt
        | None => ret tt
        end
      else ret tt
    else ret tt).

(** ** Message routing (server.py, lines 162-227) *)

(** The [asyncio.sleep(0.1)] that ends the function changes no state. *)
Definition _forward_message (message : ref) (next_hop : string) : M unit :=
  m <- deref message ;;
  emit (LogForwarding (Message.id m) next_hop) ;;;
  s <- get ;;
  match Message.route m with
  | None => raise TypeError
  | Some route =>
      if negb (bool_decide (server_id s ∈ route))
      then update_message message
             (Message.set_route (Some (route ++ [server_id s])%list))
      else ret tt
  end.

Definition _broadcast_to_neighbors (message : ref) : M unit :=
  s <- get ;;
  self <- peers_at (server_id s) ;;
  ns <- iter_neighbors self ;;
  for_each ns (fun peer_id =>
    p <- peers_at peer_id ;;
    if Peer.is_online p then _forward_message message peer_id else ret tt).

Definition _handle_incoming_message (message : ref) (uuid : string) (now : Z)
  : M unit :=
  m <- deref message ;;
  emit (LogReceived (Message.sender_id m) (Message.content m)) ;;;
  s <- get ;;
  (* Send acknowledgment *)
  ack_message <- alloc (Message.mk uuid (server_id s)
                          (Some (Message.sender_id m)) ACK
                          (Str ("ACK:" ++ Message.id m)) now default_ttl
                          (Some [server_id s])) ;;
  (* Route acknowledgment back *)
  next_hop <- _get_next_hop (Message.sender_id m) ;;
  match next_hop with
  | Some h => if truthy h then _forward_message ack_message h else ret tt
  | None => ret tt
  end.

(** Lines 171-185 of [_route_message]: what is done with a message once its
    TTL has been checked and decremented. *)
Definition route_by_recipient (message : ref) (uuid : string) (now : Z)
  : M unit :=
  m <- deref message ;;
  s <- get ;;
  match Message.recipient_id m with
  | None =>
      (* Broadcast message *)
      _broadcast_to_neighbors message
  | Some recipient =>
      if String.eqb recipient (server_id s) then
        (* Message is for this server *)
        _handle_incoming_message message uuid now
      else
        (* Route to next hop *)
        next_hop <- _get_next_hop recipient ;;
        match next_hop with
        | Some h =>
            if truthy h then _forward_message message h
            else emit (LogNoRoute recipient)
        | None => emit (LogNoRoute recipient)
        end
  end.

Definition _route_message (message : ref) (uuid : string) (now : Z) : M unit :=
  m <- deref message ;;
  if Message.ttl m <=? 0 then
    emit (LogTTLExpired (Message.id m))
  else
    (* Decrement TTL *)
    update_message message (Message.set_ttl (Message.ttl m - 1)) ;;;
    route_by_recipient message uuid now.

(** [try: ... except Exception: handler] *)
Definition try_except {A} (m : M A) (handler : exn -> M A) : M A :=
  fun s => match m s with
           | (Ok a, s') => (Ok a, s')
           | (Raise e, s') => handler e s'
           end.

(** One iteration of the loop of [_message_processor] (lines 154-160).  An
    empty queue is the [asyncio.TimeoutError] branch. *)
Definition _message_processor (uuid : string) (now : Z) : M unit :=
  s <- get ;;
  match message_queue s with
  | [] => ret tt
  | message :: rest =>
      modify (set_message_queue rest) ;;;
      try_except (_route_message message uuid now)
                 (fun _ => emit LogProcessorError)
  end.

(** ** Peer monitor and route updater (server.py, lines 269-288) *)

Definition store_peer (k : string) (p : Peer.t) : M unit :=
  modify (fun s => set_peers (dict_set (peers s) k p) s).

(** The liveness timeout of [_peer_monitor]. *)
Definition timeout : Z := 30.

(** One sweep of [_peer_monitor] (lines 272-280), at clock reading
    [current_time].  No handler surrounds the sweep: an exception of the
    recomputation leaves it. *)
Definition _peer_monitor (current_time : Z) : M unit :=
  s0 <- get ;;
  for_each (dict_keys (peers s0)) (fun peer_id =>
    peer <- peers_at peer_id ;;
    s <- get ;;
    if negb (String.eqb peer_id (server_id s)) && Peer.is_online peer then
      if current_time - Peer.last_seen peer >? timeout then
        store_peer peer_id (Peer.set_is_online false peer) ;;;
        emit (LogPeerTimedOut (Peer.name peer) peer_id) ;;;
        _update_routing_table
      else ret tt
    else ret tt).

(** One iteration of the loop of [_route_updater]. *)
Definition _route_updater : M unit := _update_routing_table.

(** ** Node facade (server.py, lines 42-149 and 290-323) *)

(** [server_id or str(uuid.uuid4())] *)
Definition __init__ (id : option string) (name : string) (uuid : string)
    (now : Z) : Server :=
  let self_id := if truthy_opt id then default uuid id else uuid in
  mkServer self_id name
    [(self_id, Peer.mk self_id name "localhost" now true (Some []))]
    [] [] [] [] false [LogInitialized self_id].

Definition start : M unit :=
  modify (set_running true) ;;;
  emit LogStarting ;;;
  emit LogStarted.

Definition stop : M unit :=
  modify (set_running false) ;;;
  emit LogStopped.

Definition enqueue (message : ref) : M unit :=
  modify (fun s => set_message_queue (message_queue s ++ [message])%list s).

(** [asdict] copies a neighbor set as a set, and [json.dumps] raises
    [TypeError] on a set: the snapshot is serialisable only when no peer
    record holds a set. *)
Definition json_serialisable (p : Peer.t) : bool :=
  match Peer.neighbors p with None => true | Some _ => false end.

Definition _broadcast_peer_discovery (uuid : string) (now : Z) : M unit :=
  s <- get ;;
  let snapshot := map snd (peers s) in
  if forallb json_serialisable snapshot then
    discovery_message <- alloc (Message.mk uuid (server_id s) None
                                  PEER_DISCOVERY (PeersJson snapshot) now
                                  default_ttl (Some [server_id s])) ;;
    enqueue discovery_message
  else raise TypeError.

(** [now] is the clock reading of the registration, [now'] the one of the
    discovery announcement. *)
Definition register_peer (peer_id peer_name address : string) (now : Z)
    (uuid : string) (now' : Z) : M bool :=
  s <- get ;;
  match dict_get (peers s) peer_id with
  | Some p =>
      (* Update existing peer *)
      store_peer peer_id
        (Peer.set_is_online true
           (Peer.set_last_seen now
              (Peer.set_address address (Peer.set_name peer_name p)))) ;;;
      emit (LogUpdatedPeer peer_name peer_id)
  | None =>
      (* Add new peer *)
      store_peer peer_id
        (Peer.mk peer_id peer_name address now true (Some [])) ;;;
      emit (LogRegisteredPeer peer_name peer_id)
  end ;;;
  _broadcast_peer_discovery uuid now' ;;;
  ret true.

Definition unregister_peer (peer_id : string) (now : Z) : M bool :=
  s <- get ;;
  match dict_get (peers s) peer_id with
  | Some p =>
      store_peer peer_id
        (Peer.set_last_seen now (Peer.set_is_online false p)) ;;;
      emit (LogUnregisteredPeer (Peer.name p) peer_id) ;;;
      (* Update routing table *)
      _update_routing_table ;;;
      ret true
  | None => ret false
  end.

Definition store_message (k : string) (message : ref) : M unit :=
  modify (fun s => set_messages (dict_set (messages s) k message) s).

Definition send_message (sender_id recipient_id content : string)
    (uuid : string) (now : Z) : M string :=
  let message_id := uuid in
  message <- alloc (Message.mk message_id sender_id (Some recipient_id) TEXT
                      (Str content) now default_ttl (Some [sender_id])) ;;
  store_message message_id message ;;;
  enqueue message ;;;
  emit (LogMessageQueued sender_id recipient_id) ;;;
  ret message_id.

Definition broadcast_message (sender_id content : string)
    (uuid : string) (now : Z) : M string :=
  let message_id := uuid in
  message <- alloc (Message.mk message_id sender_id None TEXT
                      (Str content) now default_ttl (Some [sender_id])) ;;
  store_message message_id message ;;;
  enqueue message ;;;
  emit (LogBroadcastQueued sender_id) ;;;
  ret message_id.

Record PeerStatus : Type := mkPeerStatus {
  status_name : string;
  status_address : string;
  status_is_online : bool;
  status_last_seen : Z;
  status_neighbors : list string
}.

Record NetworkStatus : Type := mkNetworkStatus {
  status_server_id : string;
  status_server_name : string;
  status_peers : dict PeerStatus;
  status_routing_table : dict (dict Z);
  message_count : nat
}.

Definition peer_status (p : Peer.t) : PeerStatus :=
  mkPeerStatus (Peer.name p) (Peer.address p) (Peer.is_online p)
    (Peer.last_seen p) (default [] (Peer.neighbors p)).

Definition get_network_status : M NetworkStatus :=
  s <- get ;;
  ret (mkNetworkStatus (server_id s) (server_name s)
         (map (fun kv => (fst kv, peer_status (snd kv))) (peers s))
         (routing_table s)
         (length (messages s))).

(** ** Reachable states *)

(** The facade operations and one iteration of each background loop, with
    the identifiers and clock readings they draw.  The loops are cooperative
    tasks: an iteration runs without interruption up to its next suspension,
    and the only suspension that is not at the end of an iteration is the
    sleep of [_forward_message] inside the loop of [_broadcast_to_neighbors],
    between two neighbors of the local node.  An iteration may run whatever
    the [running] flag is: a loop reads the flag only at the top of its next
    iteration. *)
Inductive Op : Type :=
  | OpRegister (peer_id peer_name address : string) (now : Z)
               (uuid : string) (now' : Z)
  | OpUnregister (peer_id : string) (now : Z)
  | OpSend (sender_id recipient_id content uuid : string) (now : Z)
  | OpBroadcast (sender_id content uuid : string) (now : Z)
  | OpStatus
  | OpStart
  | OpStop
  | OpProcess (uuid : string) (now : Z)
  | OpMonitor (current_time : Z)
  | OpRouteUpdate.

(** The state an operation leaves, whether it returns or raises. *)
Definition run (o : Op) (s : Server) : Server :=
  match o with
  | OpRegister p n a now uuid now' => snd (register_peer p n a now uuid now' s)
  | OpUnregister p now => snd (unregister_peer p now s)
  | OpSend a b c uuid now => snd (send_message a b c uuid now s)
  | OpBroadcast a c uuid now => snd (broadcast_message a c uuid now s)
  | OpStatus => snd (get_network_status s)
  | OpStart => snd (start s)
  | OpStop => snd (stop s)
  | OpProcess uuid now => snd (_message_processor uuid now s)
  | OpMonitor t => snd (_peer_monitor t s)
  | OpRouteUpdate => snd (_route_updater s)
  end.

Inductive reachable : Server -> Prop :=
  | reachable_init id name uuid now :
      reachable (__init__ id name uuid now)
  | reachable_step s o :
      reachable s -> reachable (run o s).

(** * Specification vocabulary and example states *)

(** Whether [self.peers[n].is_online] holds, for a registered [n]. *)
Definition online (s : Server) (n : string) : bool :=
  match dict_get (peers s) n with
  | Some p => Peer.is_online p
  | None => false
  end.

(** The table the recomputation leaves for a registered peer [p] other than
    the local node, whose neighbors are [ns] in iteration order. *)
Definition expected_routes (s : Server) (ns : list string) (p : string)
  : dict Z :=
  if bool_decide (p ∈ ns) then
    if online s p then [(p, 1)] else []
  else
    match find (online s) ns with
    | Some n => if truthy n then [(n, 2)] else []
    | None => []
    end.

(** The local node has a record, its neighbor set is a set, and its
    neighbors are registered peers other than itself. *)
Definition topology_ok (s : Server) : Prop :=
  ∃ self ns,
    dict_get (peers s) (server_id s) = Some self ∧
    Peer.neighbors self = Some ns ∧
    ∀ n, n ∈ ns → n ≠ server_id s ∧ is_Some (dict_get (peers s) n).

(** The neighbors of the local node, in iteration order. *)
Definition local_neighbors (s : Server) : list string :=
  match dict_get (peers s) (server_id s) with
  | Some self => default [] (Peer.neighbors self)
  | None => []
  end.

(** Whether the heuristic finds a path to [p]: an online direct neighbor,
    or a peer behind the first online neighbor, whose id must be a true
    value to be recorded. *)
Definition has_path (s : Server) (p : string) : bool :=
  if bool_decide (p ∈ local_neighbors s) then online s p
  else match find (online s) (local_neighbors s) with
       | Some n => truthy n
       | None => false
       end.

(** A node as constructed, before any operation. *)
Definition node : Server := __init__ (Some "node") "MeshServer" "uuid-0" 0.

(** The node after one peer has registered. *)
Definition node_with_peer : Server :=
  run (OpRegister "peer1" "Alice" "192.168.1.101" 1 "uuid-1" 1) node.

(** The same, once the route updater has run. *)
Definition node_with_routes : Server := run OpRouteUpdate node_with_peer.

(** A topology set up by hand: the local node has the online neighbor
    "n1"; "far" is registered, is not a neighbor, and is offline. *)
Definition relay_mesh : Server :=
  mkServer "node" "MeshServer"
    [("node", Peer.mk "node" "MeshServer" "localhost" 0 true (Some ["n1"]));
     ("n1", Peer.mk "n1" "Relay" "addr-n1" 0 true (Some []));
     ("far", Peer.mk "far" "Far" "addr-far" 0 false (Some []))]
    [] [] [] [] false [].

(** The invariant of the claim: no destination other than the local node is
    present with an empty candidate map. *)
Definition no_empty_entry (s : Server) : Prop :=
  ∀ d c, d ≠ server_id s → dict_get (routing_table s) d = Some c → c ≠ [].

(** The restriction of the claim: a cost-2 candidate is recorded only for
    a peer that is online. *)
Definition cost2_only_online (s s' : Server) : Prop :=
  ∀ p peer c hop,
    dict_get (peers s) p = Some peer →
    dict_get (routing_table s') p = Some c →
    (hop, 2) ∈ c →
    Peer.is_online peer = true.

(** [returns I m Q]: run from a state that satisfies [I], [m] leaves a state
    that satisfies [I], whether it returns or raises, and a returned value
    satisfies [Q]. *)
Definition returns {A} (I : Server → Prop) (m : M A) (Q : A → Prop) : Prop :=
  ∀ s, I s → I (snd (m s)) ∧ ∀ a, fst (m s) = Ok a → Q a.

Definition keeps {A} (I : Server → Prop) (m : M A) : Prop :=
  returns I m (fun _ => True).

(** An invariant is kept by a method when it is stable under the writes of
    the method.  The writes of the routing engine are: the log, the routing
    table, the queue, and the heap, which grows by new messages and whose
    messages change their route. *)
Definition log_stable (I : Server → Prop) : Prop :=
  ∀ l s, I s → I (set_log l s).
Definition routes_stable (I : Server → Prop) : Prop :=
  ∀ rt s, I s → I (set_routing_table rt s).
Definition queue_stable (I : Server → Prop) : Prop :=
  ∀ q s, I s → I (set_message_queue q s).
Definition heap_blind (I : Server → Prop) : Prop :=
  ∀ h s, I s → I (set_heap h s).
Definition heap_stable (I : Server → Prop) : Prop :=
  (∀ m s, I s → I (set_heap (heap s ++ [m]) s)) ∧
  (∀ r m v s, I s → heap s !! r = Some m →
              I (set_heap (<[r := Message.set_route v m]> (heap s)) s)).

(** The message at [r] is [m0], up to its route. *)
Definition holds_up_to_route (r : ref) (m0 : Message.t) (s : Server) : Prop :=
  ∃ m', heap s !! r = Some m' ∧
        m' = Message.set_route (Message.route m') m0.

(** A text message from "peer1" to the local node, queued by the facade. *)
Definition hello : Message.t :=
  Message.mk "uuid-m" "peer1" (Some "node") TEXT (Str "hi") 5 default_ttl
    (Some ["peer1"]).

Definition node_with_hello : Server :=
  run (OpSend "peer1" "node" "hi" "uuid-m" 5) node_with_routes.

(** The acknowledgment built by [_handle_incoming_message] for [m]. *)
Definition ack_for (s : Server) (m : Message.t) (uuid : string) (now : Z)
  : Message.t :=
  Message.mk uuid (server_id s) (Some (Message.sender_id m)) ACK
    (Str ("ACK:" ++ Message.id m)) now default_ttl (Some [server_id s]).

(** The two halves of the claim, for the message at the head of the queue:
    a text message addressed to the local node has its acknowledgment
    enqueued, and a message of another kind produces no new message. *)
Definition ack_enqueued_for_text (s : Server) (uuid : string) (now : Z)
  : Prop :=
  ∀ r rest m,
    message_queue s = r :: rest → heap s !! r = Some m →
    Message.recipient_id m = Some (server_id s) →
    Message.message_type m = TEXT →
    let s' := snd (_message_processor uuid now s) in
    ∃ a, a ∈ message_queue s' ∧ heap s' !! a = Some (ack_for s m uuid now).

Definition no_ack_for_other_kinds (s : Server) (uuid : string) (now : Z)
  : Prop :=
  ∀ r rest m,
    message_queue s = r :: rest → heap s !! r = Some m →
    Message.recipient_id m = Some (server_id s) →
    Message.message_type m ≠ TEXT →
    let s' := snd (_message_processor uuid now s) in
    length (heap s') = length (heap s).

(** A system message from the neighbor "n1" to the local node. *)
Definition notice : Message.t :=
  Message.mk "uuid-s" "n1" (Some "node") SYSTEM (Str "notice") 5 default_ttl
    (Some ["n1"]).

(** [relay_mesh] with its routes computed and [notice] waiting in the
    queue. *)
Definition relay_mesh_with_notice : Server :=
  set_message_queue [0%nat]
    (set_heap [notice] (snd (_update_routing_table relay_mesh))).

(** Stability under the write of the monitor to the registry: the record
    of a peer is replaced by the same record marked offline. *)
Definition offline_stable (I : Server → Prop) : Prop :=
  ∀ k p s, I s → dict_get (peers s) k = Some p →
           I (set_peers (dict_set (peers s) k (Peer.set_is_online false p)) s).

(** The property of the claim for one operation run at clock reading [now]:
    a peer that the operation takes from online to offline has its
    [last_seen] set to [now]. *)
Definition refreshed_when_cleared (now : Z) (s s' : Server) : Prop :=
  ∀ k p p',
    dict_get (peers s) k = Some p →
    dict_get (peers s') k = Some p' →
    Peer.is_online p = true → Peer.is_online p' = false →
    Peer.last_seen p' = now.

(** The last-seen time recorded for [k], if [k] is registered. *)
Definition last_seen_of (s : Server) (k : string) : option Z :=
  Peer.last_seen <$> dict_get (peers s) k.

(** The peer "peer1" of [node_with_peer], marked offline at time 7. *)
Definition node_after_unregister : Server :=
  set_log (log node_with_peer ++ [LogUnregisteredPeer "Alice" "peer1"])
    (set_peers
       (dict_set (peers node_with_peer) "peer1"
          (Peer.mk "peer1" "Alice" "192.168.1.101" 7 false (Some [])))
       node_with_peer).

(** The rule of the claim: the id of the local node is appended unless it
    is the last entry of the route. *)
Definition appends_unless_last (s : Server) (r : ref) (next_hop : string)
  : Prop :=
  ∀ m route,
    heap s !! r = Some m → Message.route m = Some route →
    (Message.route <$> heap (snd (_forward_message r next_hop s)) !! r) =
    Some (Some (if bool_decide (last route = Some (server_id s))
                then route
                else (route ++ [server_id s])%list)).

(** A message that has left the local node and has come back from "n1". *)
Definition returned : Message.t :=
  Message.mk "uuid-r" "node" (Some "far") TEXT (Str "ping") 5 8
    (Some ["node"; "n1"]).

Definition relay_mesh_with_returned : Server :=
  set_heap [returned] (snd (_update_routing_table relay_mesh)).

(** Stability under the writes of the facade to the registry: the record
    stored at [k] has the neighbor set of the record it replaces, or the
    empty set when [k] is new. *)
Definition registry_stable (I : Server → Prop) : Prop :=
  ∀ k p' s,
    I s →
    Peer.neighbors p' =
      match dict_get (peers s) k with
      | Some p => Peer.neighbors p
      | None => Some []
      end →
    I (set_peers (dict_set (peers s) k p') s).
Definition running_blind (I : Server → Prop) : Prop :=
  ∀ b s, I s → I (set_running b s).
Definition messages_blind (I : Server → Prop) : Prop :=
  ∀ ms s, I s → I (set_messages ms s).

(** Whether an operation writes the message store. *)
Definition writes_store (o : Op) : bool :=
  match o with
  | OpSend _ _ _ _ _ | OpBroadcast _ _ _ _ => true
  | _ => false
  end.

(** The property of the claim: every message object that has been created
    is recorded in the store under its id. *)
Definition all_messages_recorded (s : Server) : Prop :=
  ∀ r m, heap s !! r = Some m →
         dict_get (messages s) (Message.id m) = Some r.

(** The node after the processor has drained [hello]. *)
Definition node_after_hello : Server :=
  run (OpProcess "uuid-a" 6) node_with_hello.

(** Every registered peer has the empty neighbor set, the local node is
    registered, and every candidate map of the routing table is empty. *)
Definition no_neighbors (s : Server) : Prop :=
  (∀ k p, dict_get (peers s) k = Some p → Peer.neighbors p = Some []) ∧
  is_Some (dict_get (peers s) (server_id s)) ∧
  (∀ d c, dict_get (routing_table s) d = Some c → c = []).

(** ** Vocabulary of the further properties *)

(** The record [register_peer] stores for [peer_id]: the fields of the
    call, with the id and the neighbor set of the record it replaces, or a
    new record with an empty neighbor set. *)
Definition registered_record (old : option Peer.t)
    (peer_id peer_name address : string) (now : Z) : Peer.t :=
  match old with
  | Some p => Peer.mk (Peer.id p) peer_name address now true (Peer.neighbors p)
  | None => Peer.mk peer_id peer_name address now true (Some [])
  end.

(** The event [register_peer] logs. *)
Definition registered_event (old : option Peer.t) (peer_id peer_name : string)
  : Event :=
  match old with
  | Some _ => LogUpdatedPeer peer_name peer_id
  | None => LogRegisteredPeer peer_name peer_id
  end.

(** A freshly constructed node on which "peer1" registers. *)
Definition register_alice : M bool :=
  register_peer "peer1" "Alice" "192.168.1.101" 1 "uuid-1" 1.

(** The state after the simulated forward of the message [m] at [r], whose
    route is [route], to [next_hop]. *)
Definition forwarded (r : ref) (m : Message.t) (route : list string)
    (next_hop : string) (s : Server) : Server :=
  let s1 := set_log (log s ++ [LogForwarding (Message.id m) next_hop]) s in
  if bool_decide (server_id s ∈ route) then s1
  else set_heap
         (<[r := Message.set_route (Some (route ++ [server_id s])%list) m]>
            (heap s)) s1.

(** The online neighbors of the local node, in iteration order. *)
Definition broadcast_targets (s : Server) : list string :=
  List.filter (online s) (local_neighbors s).

(** The state after the message [m] at [r], whose route is [route], has been
    forwarded to [targets] in turn. *)
Definition forwarded_to_all (r : ref) (m : Message.t) (route : list string)
    (targets : list string) (s : Server) : Server :=
  set_log (log s ++ map (LogForwarding (Message.id m)) targets)
    (if bool_decide (server_id s ∈ route)
        || match targets with [] => true | _ => false end
     then s
     else set_heap
            (<[r := Message.set_route (Some (route ++ [server_id s])%list) m]>
               (heap s)) s).

(** A message from "n1" to the peer "far", waiting on [relay_mesh] with its
    routes computed. *)
Definition to_far : Message.t :=
  Message.mk "uuid-f" "n1" (Some "far") TEXT (Str "hi far") 5 default_ttl
    (Some ["n1"]).

Definition relay_mesh_with_to_far : Server :=
  set_heap [to_far] (snd (_update_routing_table relay_mesh)).

(** A broadcast from "n1", waiting on [relay_mesh]. *)
Definition to_all : Message.t :=
  Message.mk "uuid-b" "n1" None TEXT (Str "hi all") 5 default_ttl
    (Some ["n1"]).

Definition relay_mesh_with_to_all : Server := set_heap [to_all] relay_mesh.

(** Whether a sweep of the monitor at [current_time] times out the record
    [p] registered under [k], on the node [self_id]. *)
Definition stale (self_id : string) (current_time : Z) (k : string)
    (p : Peer.t) : bool :=
  negb (String.eqb k self_id) && Peer.is_online p
  && (current_time - Peer.last_seen p >? timeout).

(** The record a sweep leaves. *)
Definition swept (self_id : string) (current_time : Z) (k : string)
    (p : Peer.t) : Peer.t :=
  if stale self_id current_time k p then Peer.set_is_online false p else p.

(** The routing table holds, for every registered peer other than the local
    node, the entry that a recomputation from the registry gives. *)
Definition routes_current (s : Server) : Prop :=
  ∀ p, p ∈ dict_keys (peers s) → p ≠ server_id s →
       dict_get (routing_table s) p =
       Some (expected_routes s (local_neighbors s) p).

(** An event other than a forward and a TTL expiry. *)
Definition calm (e : Event) : bool :=
  match e with
  | LogForwarding _ _ | LogTTLExpired _ => false
  | _ => true
  end.

(** A message as it was created, but for one decrement of its TTL: its
    route is its sender alone. *)
Definition pristine (m : Message.t) : Prop :=
  Message.route m = Some [Message.sender_id m] ∧
  (Message.ttl m = default_ttl ∨ Message.ttl m = default_ttl - 1).

(** No forward and no expiry has been logged, every message is pristine,
    and the queue holds distinct messages that still have their initial
    TTL. *)
Definition quiet (l : list Event) (h : list Message.t) (q : list ref) : Prop :=
  Forall (fun e => calm e = true) l ∧
  Forall pristine h ∧
  NoDup q ∧
  ∀ r, r ∈ q → ∃ m, h !! r = Some m ∧ Message.ttl m = default_ttl.

Definition quiet_node (s : Server) : Prop :=
  quiet (log s) (heap s) (message_queue s).

(** [relay_mesh] whose local node also names the neighbor "ghost", which
    never registered. *)
Definition relay_mesh_with_ghost : Server :=
  set_peers
    (dict_set (peers relay_mesh) "node"
       (Peer.mk "node" "MeshServer" "localhost" 0 true (Some ["n1"; "ghost"])))
    relay_mesh.

(** * Properties *)

(** ** Dictionaries *)

Section DictFacts.
Context {V : Type}.
Implicit Types (d : dict V) (k : string) (v : V).

Lemma dict_get_set d k v k' :
    dict_get (dict_set d k v) k' =
    if String.eqb k k' then Some v else dict_get d k'.
  Proof.
    induction d as [|[k0 v0] d IH]; simpl.
    - reflexivity.
    - destruct (String.eqb_spec k0 k) as [->|Hne]; simpl.
      + destruct (String.eqb k k'); reflexivity.
      + destruct (String.eqb_spec k0 k') as [->|Hne'].
        * destruct (String.eqb_spec k k'); [congruence | reflexivity].
        * exact IH.
  Qed.

Lemma dict_get_set_eq d k v : dict_get (dict_set d k v) k = Some v.
  Proof. rewrite dict_get_set, String.eqb_refl. reflexivity. Qed.

Lemma dict_get_set_ne d k v k' :
    k ≠ k' → dict_get (dict_set d k v) k' = dict_get d k'.
  Proof.
    intros Hne. rewrite dict_get_set.
    destruct (String.eqb_spec k k'); [contradiction | reflexivity].
  Qed.

Lemma dict_set_set d k v v' :
    dict_set (dict_set d k v) k v' = dict_set d k v'.
  Proof.
    induction d as [|[k0 v0] d IH]; simpl.
    - rewrite String.eqb_refl. reflexivity.
    - destruct (String.eqb_spec k0 k) as [->|Hne]; simpl.
      + rewrite String.eqb_refl. reflexivity.
      + destruct (String.eqb_spec k0 k); [contradiction |].
        rewrite IH. reflexivity.
  Qed.

Lemma dict_get_keys d k :
    is_Some (dict_get d k) ↔ k ∈ dict_keys d.
  Proof.
    induction d as [|[k0 v0] d IH]; simpl.
    - split; [intros [? ?]; discriminate | intros H; inversion H].
    - destruct (String.eqb_spec k0 k) as [->|Hne].
      + split; [intros _; left | intros _; eexists; reflexivity].
      + rewrite IH. split; [intros H; right; exact H |].
        intros H. inversion H; subst; [contradiction | assumption].
  Qed.

Lemma dict_get_elem d k v : dict_get d k = Some v → (k, v) ∈ d.
  Proof.
    induction d as [|[k0 v0] d IH]; simpl; [discriminate |].
    destruct (String.eqb_spec k0 k) as [->|Hne].
    - intros [= ->]. left.
    - intros H. right. exact (IH H).
  Qed.

Lemma dict_set_fresh d k v :
    dict_get d k = None → dict_set d k v = (d ++ [(k, v)])%list.
  Proof.
    induction d as [|[k0 v0] d IH]; simpl; [reflexivity |].
    destruct (String.eqb k0 k); [discriminate |].
    intros H. rewrite (IH H). reflexivity.
  Qed.

Lemma dict_set_length d k v :
    length (dict_set d k v) =
    if dict_mem k d then length d else S (length d).
  Proof.
    unfold dict_mem. induction d as [|[k0 v0] d IH]; simpl; [reflexivity |].
    destruct (String.eqb k0 k); simpl; [reflexivity |].
    rewrite IH. destruct (dict_get d k); reflexivity.
  Qed.
End DictFacts.

(** ** Next-hop selection *)

Lemma min_by_cost_from_spec items : ∀ best,
  let r := min_by_cost_from best items in
  r ∈ best :: items ∧ ∀ x, x ∈ best :: items → snd r ≤ snd x.
Proof.
  induction items as [|y items IH]; intros best; simpl.
  - split; [left |]. intros x Hx. apply list_elem_of_singleton in Hx.
    subst. lia.
  - destruct (Z.ltb_spec (snd y) (snd best)) as [Hlt|Hge].
    + destruct (IH y) as [Hin Hmin]. split.
      * right. exact Hin.
      * intros x Hx. apply elem_of_cons in Hx as [->|Hx].
        -- specialize (Hmin y (list_elem_of_here _ _)). lia.
        -- apply Hmin, Hx.
    + destruct (IH best) as [Hin Hmin]. split.
      * apply elem_of_cons in Hin as [->|Hin]; [left | right; right; exact Hin].
      * intros x Hx. apply elem_of_cons in Hx as [->|Hx].
        -- apply Hmin. left.
        -- apply elem_of_cons in Hx as [->|Hx].
           ++ specialize (Hmin best (list_elem_of_here _ _)). lia.
           ++ apply Hmin. right. exact Hx.
Qed.

Lemma get_next_hop_absent s destination :
  dict_get (routing_table s) destination = None →
  _get_next_hop destination s = (Ok None, s).
Proof. intros H. unfold _get_next_hop, bind, get. rewrite H. reflexivity. Qed.

Lemma get_next_hop_empty s destination :
  dict_get (routing_table s) destination = Some [] →
  _get_next_hop destination s = (Raise ValueError, s).
Proof. intros H. unfold _get_next_hop, bind, get. rewrite H. reflexivity. Qed.

Lemma get_next_hop_min s destination candidates :
  dict_get (routing_table s) destination = Some candidates →
  candidates ≠ [] →
  ∃ hop cost,
    _get_next_hop destination s = (Ok (Some hop), s) ∧
    (hop, cost) ∈ candidates ∧
    ∀ x, x ∈ candidates → cost ≤ snd x.
Proof.
  intros H Hne. unfold _get_next_hop, bind, get. rewrite H.
  destruct candidates as [|x items]; [contradiction |]. simpl.
  destruct (min_by_cost_from_spec items x) as [Hin Hmin].
  destruct (min_by_cost_from x items) as [hop cost] eqn:E.
  exists hop, cost. auto.
Qed.

Lemma get_next_hop_state s destination :
  snd (_get_next_hop destination s) = s.
Proof.
  unfold _get_next_hop, bind, get.
  destruct (dict_get (routing_table s) destination) as [c|]; [|reflexivity].
  destruct (min_by_cost c); reflexivity.
Qed.

(** ** Routing-table recomputation *)

Lemma set_routing_table_twice rt rt' s :
  set_routing_table rt' (set_routing_table rt s) = set_routing_table rt' s.
Proof. reflexivity. Qed.

Lemma set_routing_table_same s : set_routing_table (routing_table s) s = s.
Proof. destruct s; reflexivity. Qed.

(** Unfolding of the monad operations and of the state accessors. *)
Ltac monad_unfold :=
  cbv beta iota delta
    [bind get ret raise modify peers_at routing_table_at iter_neighbors
     deref store_routes store_peer store_message emit enqueue alloc
     update_message try_except].

Ltac state_simpl :=
  cbn [server_id server_name peers heap messages routing_table message_queue
       running log set_peers set_heap set_messages set_routing_table
       set_message_queue set_running set_log fst snd negb].

Ltac mred := monad_unfold; state_simpl.

Lemma best_relay_settled s ns b :
  (∀ n, n ∈ ns → is_Some (dict_get (peers s) n)) →
  best_relay ns (Some (2, b)) s = (Ok (Some (2, b)), s).
Proof.
  induction ns as [|n ns IH]; intros Hreg; [reflexivity |].
  destruct (Hreg n) as [p Hp]; [left |].
  cbn [best_relay]. mred. rewrite Hp.
  unfold cost_below. replace (2 <? 2) with false by reflexivity.
  destruct (Peer.is_online p);
    apply IH; intros n' Hn'; apply Hreg; right; exact Hn'.
Qed.

Lemma best_relay_spec s ns :
  (∀ n, n ∈ ns → is_Some (dict_get (peers s) n)) →
  best_relay ns None s =
  (Ok (match find (online s) ns with
       | Some n => Some (2, n)
       | None => None
       end), s).
Proof.
  induction ns as [|n ns IH]; intros Hreg; [reflexivity |].
  destruct (Hreg n) as [p Hp]; [left |].
  assert (Hreg' : ∀ n', n' ∈ ns → is_Some (dict_get (peers s) n'))
    by (intros n' Hn'; apply Hreg; right; exact Hn').
  cbn [best_relay find]. mred. rewrite Hp.
  unfold online at 1. rewrite Hp. unfold cost_below.
  destruct (Peer.is_online p).
  - apply best_relay_settled, Hreg'.
  - apply IH, Hreg'.
Qed.

Lemma online_set_routing_table rt s n :
  online (set_routing_table rt s) n = online s n.
Proof. reflexivity. Qed.

(** The three loops of [_update_routing_table], in program order. *)
Local Abbreviation reset_routes self_id :=
  (fun peer_id : string =>
     if negb (String.eqb peer_id self_id)
     then store_routes peer_id []
     else ret tt).

Local Abbreviation direct_routes :=
  (fun neighbor_id : string =>
     p <- peers_at neighbor_id ;;
     if Peer.is_online p then
       c <- routing_table_at neighbor_id ;;
       store_routes neighbor_id (dict_set c neighbor_id 1)
     else ret tt).

Local Abbreviation relay_routes self_id :=
  (fun peer_id : string =>
     if negb (String.eqb peer_id self_id) then
       self <- peers_at self_id ;;
       ns <- iter_neighbors self ;;
       if negb (bool_decide (peer_id ∈ ns)) then
         self <- peers_at self_id ;;
         ns <- iter_neighbors self ;;
         best <- best_relay ns None ;;
         match best with
         | Some (min_cost, best_neighbor) =>
             if truthy best_neighbor then
               c <- routing_table_at peer_id ;;
               store_routes peer_id (dict_set c best_neighbor min_cost)
             else ret tt
         | None => ret tt
         end
       else ret tt
     else ret tt).

#[local] Set Warnings "-clear-no-such-hyp".

Ltac decide_cases :=
  repeat case_bool_decide; simplify_eq; try reflexivity;
  try (exfalso; set_solver).

Lemma reset_loop_spec self_id ks : ∀ s, ∃ rt',
  for_each ks (reset_routes self_id) s = (Ok tt, set_routing_table rt' s) ∧
  ∀ p, dict_get rt' p =
       if bool_decide (p ∈ ks ∧ p ≠ self_id) then Some []
       else dict_get (routing_table s) p.
Proof.
  induction ks as [|k ks IH]; intros s.
  - exists (routing_table s). split.
    + cbn [for_each]. mred. rewrite set_routing_table_same. reflexivity.
    + intros p. decide_cases.
  - cbn [for_each]. destruct (String.eqb_spec k self_id) as [->|Hne]; simpl negb.
    + destruct (IH s) as (rt' & Hrun & Hget). exists rt'. split.
      * mred. exact Hrun.
      * intros p. rewrite Hget. decide_cases.
    + destruct (IH (set_routing_table (dict_set (routing_table s) k []) s))
        as (rt' & Hrun & Hget).
      exists rt'. split.
      * mred. exact Hrun.
      * intros p. rewrite Hget. state_simpl. rewrite dict_get_set.
        destruct (String.eqb_spec k p) as [->|Hkp]; decide_cases.
Qed.

Lemma direct_loop_spec ns : ∀ s,
  (∀ n, n ∈ ns → is_Some (dict_get (peers s) n)) →
  (∀ n, n ∈ ns → is_Some (dict_get (routing_table s) n)) →
  ∃ rt',
    for_each ns direct_routes s = (Ok tt, set_routing_table rt' s) ∧
    ∀ p, dict_get rt' p =
         if bool_decide (p ∈ ns) && online s p
         then (fun c => dict_set c p 1) <$> dict_get (routing_table s) p
         else dict_get (routing_table s) p.
Proof.
  induction ns as [|n ns IH]; intros s Hreg Hrt.
  - exists (routing_table s). split.
    + cbn [for_each]. mred. rewrite set_routing_table_same. reflexivity.
    + intros p. decide_cases.
  - destruct (Hreg n) as [q Hq]; [left |].
    destruct (Hrt n) as [c Hc]; [left |].
    assert (Hreg' : ∀ n', n' ∈ ns → is_Some (dict_get (peers s) n'))
      by (intros n' Hn'; apply Hreg; right; exact Hn').
    assert (Hrt' : ∀ n', n' ∈ ns → is_Some (dict_get (routing_table s) n'))
      by (intros n' Hn'; apply Hrt; right; exact Hn').
    cbn [for_each]. mred. rewrite Hq.
    destruct (Peer.is_online q) eqn:Hon.
    + mred. rewrite Hc.
      destruct (IH (set_routing_table
                      (dict_set (routing_table s) n (dict_set c n 1)) s))
        as (rt' & Hrun & Hget).
      * exact Hreg'.
      * intros n' Hn'. state_simpl. rewrite dict_get_set.
        destruct (String.eqb n n'); [eexists; reflexivity | apply Hrt', Hn'].
      * exists rt'. split; [exact Hrun |].
        intros p. rewrite Hget. rewrite online_set_routing_table.
        state_simpl. rewrite dict_get_set.
        destruct (String.eqb_spec n p) as [->|Hnp].
        -- assert (Hp : online s p = true) by (unfold online; rewrite Hq; exact Hon).
           rewrite Hp, Hc. cbn [fmap option_fmap option_map].
           rewrite dict_set_set. decide_cases.
        -- destruct (online s p); decide_cases.
    + destruct (IH s Hreg' Hrt') as (rt' & Hrun & Hget).
      exists rt'. split; [exact Hrun |].
      intros p. rewrite Hget.
      destruct (String.eqb_spec n p) as [->|Hnp].
      * assert (Hp : online s p = false) by (unfold online; rewrite Hq; exact Hon).
        rewrite Hp. rewrite !andb_false_r. reflexivity.
      * destruct (online s p); decide_cases.
Qed.

Lemma relay_loop_spec self_id self ns ks : ∀ s,
  dict_get (peers s) self_id = Some self →
  Peer.neighbors self = Some ns →
  (∀ n, n ∈ ns → is_Some (dict_get (peers s) n)) →
  (∀ p, p ∈ ks → p ≠ self_id → is_Some (dict_get (routing_table s) p)) →
  ∃ rt',
    for_each ks (relay_routes self_id) s = (Ok tt, set_routing_table rt' s) ∧
    ∀ p, dict_get rt' p =
         if bool_decide (p ∈ ks ∧ p ≠ self_id ∧ p ∉ ns) then
           match find (online s) ns with
           | Some n =>
               if truthy n
               then (fun c => dict_set c n 2) <$> dict_get (routing_table s) p
               else dict_get (routing_table s) p
           | None => dict_get (routing_table s) p
           end
         else dict_get (routing_table s) p.
Proof.
  induction ks as [|k ks IH]; intros s Hself Hns Hreg Hrt.
  - exists (routing_table s). split.
    + cbn [for_each]. mred. rewrite set_routing_table_same. reflexivity.
    + intros p. decide_cases.
  - assert (Hrt' : ∀ p, p ∈ ks → p ≠ self_id →
                        is_Some (dict_get (routing_table s) p))
      by (intros p Hp; apply Hrt; right; exact Hp).
    assert (Hskip : ∀ rt',
      (∀ p, dict_get rt' p =
         if bool_decide (p ∈ ks ∧ p ≠ self_id ∧ p ∉ ns) then
           match find (online s) ns with
           | Some n =>
               if truthy n
               then (fun c => dict_set c n 2) <$> dict_get (routing_table s) p
               else dict_get (routing_table s) p
           | None => dict_get (routing_table s) p
           end
         else dict_get (routing_table s) p) →
      (k = self_id ∨ k ∈ ns ∨
       match find (online s) ns with Some n => truthy n = false | None => True end) →
      ∀ p, dict_get rt' p =
         if bool_decide (p ∈ k :: ks ∧ p ≠ self_id ∧ p ∉ ns) then
           match find (online s) ns with
           | Some n =>
               if truthy n
               then (fun c => dict_set c n 2) <$> dict_get (routing_table s) p
               else dict_get (routing_table s) p
           | None => dict_get (routing_table s) p
           end
         else dict_get (routing_table s) p).
    { intros rt' Hget Hk p. rewrite Hget.
      destruct Hk as [->|[Hk|Hk]]; [decide_cases | decide_cases |].
      destruct (find (online s) ns) as [n|]; [rewrite Hk|]; decide_cases. }
    cbn [for_each].
    destruct (String.eqb_spec k self_id) as [->|Hne]; simpl negb.
    { destruct (IH s Hself Hns Hreg Hrt') as (rt' & Hrun & Hget).
      exists rt'. split; [mred; exact Hrun | apply Hskip; auto]. }
    mred. rewrite Hself. unfold iter_neighbors. rewrite Hns. mred.
    case_bool_decide as Hin; simpl negb.
    { mred. destruct (IH s Hself Hns Hreg Hrt') as (rt' & Hrun & Hget).
      exists rt'. split; [exact Hrun | apply Hskip; auto]. }
    mred. rewrite Hself. mred. rewrite Hns. mred.
    rewrite (best_relay_spec s ns Hreg).
    destruct (find (online s) ns) as [n|] eqn:Hfind.
    2:{ mred. destruct (IH s Hself Hns Hreg Hrt') as (rt' & Hrun & Hget).
        exists rt'. split; [exact Hrun |].
        apply Hskip; [rewrite ?Hfind in Hget; exact Hget |].
        right; right; rewrite ?Hfind; exact I. }
    destruct (truthy n) eqn:Htruthy.
    2:{ mred. destruct (IH s Hself Hns Hreg Hrt') as (rt' & Hrun & Hget).
        exists rt'. split; [exact Hrun |].
        apply Hskip; [rewrite ?Hfind, ?Htruthy in Hget; exact Hget |].
        right; right; rewrite ?Hfind; first [reflexivity | exact Htruthy]. }
    destruct (Hrt k) as [c Hc]; [left | exact Hne |].
    mred. rewrite Hc.
    destruct (IH (set_routing_table
                    (dict_set (routing_table s) k (dict_set c n 2)) s))
      as (rt' & Hrun & Hget); try assumption.
    { intros p Hp Hpne. state_simpl. rewrite dict_get_set.
      destruct (String.eqb k p); [eexists; reflexivity | apply Hrt'; assumption]. }
    exists rt'. split; [exact Hrun |].
    intros p. rewrite Hget.
    replace (online (set_routing_table
                       (dict_set (routing_table s) k (dict_set c n 2)) s))
      with (online s) by reflexivity.
    rewrite Hfind, Htruthy. state_simpl. rewrite dict_get_set.
    destruct (String.eqb_spec k p) as [->|Hkp].
    + rewrite Hc. cbn [fmap option_fmap option_map]. rewrite dict_set_set.
      decide_cases.
    + decide_cases.
Qed.

Lemma bind_ok {A B} (m : M A) (k : A → M B) s a s' :
  m s = (Ok a, s') → bind m k s = k a s'.
Proof. intros H. unfold bind. rewrite H. reflexivity. Qed.

Lemma get_ok s : get s = (Ok s, s).
Proof. reflexivity. Qed.

Lemma peers_at_ok s k p :
  dict_get (peers s) k = Some p → peers_at k s = (Ok p, s).
Proof. intros H. unfold peers_at. mred. rewrite H. reflexivity. Qed.

Lemma iter_neighbors_ok s p ns :
  Peer.neighbors p = Some ns → iter_neighbors p s = (Ok ns, s).
Proof. intros H. unfold iter_neighbors. rewrite H. reflexivity. Qed.

Ltac mstep H := rewrite (bind_ok _ _ _ _ _ H); cbv beta zeta.

(** The recomputation returns on a well-formed topology, writes nothing
    but the routing table, and leaves [expected_routes] for every registered
    peer other than the local node; other entries are kept. *)
Lemma update_routing_table_spec s self ns :
  dict_get (peers s) (server_id s) = Some self →
  Peer.neighbors self = Some ns →
  (∀ n, n ∈ ns → n ≠ server_id s ∧ is_Some (dict_get (peers s) n)) →
  ∃ rt',
    _update_routing_table s = (Ok tt, set_routing_table rt' s) ∧
    (∀ p, p ∈ dict_keys (peers s) → p ≠ server_id s →
          dict_get rt' p = Some (expected_routes s ns p)) ∧
    (∀ p, p ∉ dict_keys (peers s) ∨ p = server_id s →
          dict_get rt' p = dict_get (routing_table s) p).
Proof.
  intros Hself Hns Htopo.
  assert (Hreg : ∀ n, n ∈ ns → is_Some (dict_get (peers s) n))
    by (intros n Hn; apply Htopo, Hn).
  destruct (reset_loop_spec (server_id s) (dict_keys (peers s)) s)
    as (rt1 & H1 & G1).
  destruct (direct_loop_spec ns (set_routing_table rt1 s)) as (rt2 & H2 & G2).
  { exact Hreg. }
  { intros n Hn. state_simpl. rewrite G1.
    destruct (Htopo n Hn) as [Hne Hn']. apply dict_get_keys in Hn'.
    rewrite bool_decide_eq_true_2 by (split; assumption).
    eexists; reflexivity. }
  rewrite set_routing_table_twice in H2.
  destruct (relay_loop_spec (server_id s) self ns (dict_keys (peers s))
              (set_routing_table rt2 s)) as (rt3 & H3 & G3);
    try assumption.
  { intros p Hp Hne. state_simpl. rewrite G2. state_simpl. rewrite G1.
    rewrite (bool_decide_eq_true_2 (p ∈ dict_keys (peers s) ∧ p ≠ server_id s))
      by (split; assumption).
    destruct (bool_decide (p ∈ ns) && online (set_routing_table rt1 s) p);
      eexists; reflexivity. }
  rewrite set_routing_table_twice in H3.
  exists rt3. split; [|split].
  - unfold _update_routing_table.
    mstep (get_ok s). mstep H1.
    mstep (peers_at_ok (set_routing_table rt1 s) _ _ Hself).
    mstep (iter_neighbors_ok (set_routing_table rt1 s) _ _ Hns).
    mstep H2. exact H3.
  - intros p Hp Hne. rewrite G3. state_simpl. rewrite G2. state_simpl.
    rewrite G1. rewrite !online_set_routing_table.
    rewrite (bool_decide_eq_true_2 (p ∈ dict_keys (peers s) ∧ p ≠ server_id s))
      by (split; assumption).
    unfold expected_routes.
    replace (online (set_routing_table rt2 s)) with (online s) by reflexivity.
    destruct (decide (p ∈ ns)) as [Hin|Hin].
    + rewrite (bool_decide_eq_true_2 (p ∈ ns)) by exact Hin.
      rewrite bool_decide_eq_false_2 by tauto.
      cbn [andb]. destruct (online s p); reflexivity.
    + rewrite (bool_decide_eq_false_2 (p ∈ ns)) by exact Hin.
      rewrite bool_decide_eq_true_2 by tauto.
      cbn [andb].
      destruct (find (online s) ns) as [n|]; [|reflexivity].
      destruct (truthy n); reflexivity.
  - intros p Hp. rewrite G3. state_simpl. rewrite G2. state_simpl. rewrite G1.
    assert (Hnot : p ∉ ns).
    { intros Hin. destruct (Htopo p Hin) as [Hne Hn'].
      apply dict_get_keys in Hn'. tauto. }
    rewrite (bool_decide_eq_false_2 (p ∈ ns)) by exact Hnot.
    rewrite !bool_decide_eq_false_2 by tauto.
    reflexivity.
Qed.

Lemma expected_routes_empty s p :
  expected_routes s (local_neighbors s) p = [] ↔ has_path s p = false.
Proof.
  unfold expected_routes, has_path.
  destruct (bool_decide (p ∈ local_neighbors s)).
  - destruct (online s p); split; congruence.
  - destruct (find (online s) (local_neighbors s)) as [n|]; [|tauto].
    destruct (truthy n); split; congruence.
Qed.

Lemma topology_ok_neighbors s :
  topology_ok s →
  ∃ self,
    dict_get (peers s) (server_id s) = Some self ∧
    Peer.neighbors self = Some (local_neighbors s) ∧
    ∀ n, n ∈ local_neighbors s →
         n ≠ server_id s ∧ is_Some (dict_get (peers s) n).
Proof.
  intros (self & ns & Hself & Hns & Htopo). exists self.
  unfold local_neighbors. rewrite Hself, Hns. auto.
Qed.

(** ** C1: next-hop lookup *)

(** C1 (code bug).  The lookup is meant to return a next hop or no result
    and never to raise.  In the state a node reaches after one registration
    and one run of the route updater, the entry of the registered peer is
    an empty candidate map, and [_get_next_hop] raises [ValueError] on it
    instead of returning [None]. *)
Theorem get_next_hop_raises_on_empty_entry :
  reachable node_with_routes ∧
  dict_get (routing_table node_with_routes) "peer1" = Some [] ∧
  _get_next_hop "peer1" node_with_routes = (Raise ValueError, node_with_routes).
Proof.
  split; [|split].
  - unfold node_with_routes, node_with_peer, node.
    do 2 constructor. constructor.
  - reflexivity.
  - apply get_next_hop_empty. reflexivity.
Qed.

(** ** C2: entries of the recomputed table *)

(** C2 (counterexample).  After a recomputation on a node with one
    registered peer and no neighbors, the peer is present in the table with
    an empty candidate map. *)
Lemma recomputation_leaves_empty_entry :
  fst (_update_routing_table node_with_peer) = Ok tt ∧
  ¬ no_empty_entry (snd (_update_routing_table node_with_peer)).
Proof.
  split; [reflexivity |].
  intros H. apply (H "peer1" []); [discriminate | reflexivity | reflexivity].
Qed.

(** C2 (amended).  On a well-formed topology the recomputation returns, and
    afterwards every registered peer other than the local node has an entry
    in the table; its candidate map is empty exactly when the heuristic
    finds no path to the peer. *)
Theorem recomputation_entries s :
  topology_ok s →
  ∃ rt',
    _update_routing_table s = (Ok tt, set_routing_table rt' s) ∧
    ∀ p, p ∈ dict_keys (peers s) → p ≠ server_id s →
         ∃ c, dict_get rt' p = Some c ∧ (c = [] ↔ has_path s p = false).
Proof.
  intros Htopo.
  destruct (topology_ok_neighbors s Htopo) as (self & Hself & Hns & Hn).
  destruct (update_routing_table_spec s self _ Hself Hns Hn)
    as (rt' & Hrun & Hin & _).
  exists rt'. split; [exact Hrun |].
  intros p Hp Hne. eexists. split; [apply Hin; assumption |].
  apply expected_routes_empty.
Qed.

Lemma recomputation_entries_witness :
  ∃ rt',
    _update_routing_table node_with_peer =
      (Ok tt, set_routing_table rt' node_with_peer) ∧
    ∀ p, p ∈ dict_keys (peers node_with_peer) →
         p ≠ server_id node_with_peer →
         ∃ c, dict_get rt' p = Some c ∧
              (c = [] ↔ has_path node_with_peer p = false).
Proof.
  apply (recomputation_entries node_with_peer).
  eexists _, []. split; [reflexivity |]. split; [reflexivity |].
  intros n Hn. inversion Hn.
Defined.

(** ** C3: cost-2 candidates *)

(** C3 (counterexample).  The offline peer "far" of [relay_mesh] receives
    the candidate map {"n1": 2}. *)
Lemma offline_peer_gets_cost2_route :
  fst (_update_routing_table relay_mesh) = Ok tt ∧
  dict_get (routing_table (snd (_update_routing_table relay_mesh))) "far"
    = Some [("n1", 2)] ∧
  ¬ cost2_only_online relay_mesh (snd (_update_routing_table relay_mesh)).
Proof.
  split; [reflexivity |]. split; [reflexivity |].
  intros H.
  specialize (H "far" _ [("n1", 2)] "n1" eq_refl eq_refl
                (list_elem_of_here _ _)).
  discriminate H.
Qed.

(** C3 (amended).  On a well-formed topology, every registered peer other
    than the local node that is not a direct neighbor, online or offline,
    is left with the candidate map {first online neighbor: 2} when the local
    node has an online neighbor and the first one has a non-empty id, and
    with the empty map otherwise; a direct neighbor gets no cost-2
    candidate. *)
Theorem cost2_routes s :
  topology_ok s →
  ∃ rt',
    _update_routing_table s = (Ok tt, set_routing_table rt' s) ∧
    (∀ p, p ∈ dict_keys (peers s) → p ≠ server_id s →
          p ∉ local_neighbors s →
          dict_get rt' p =
          Some (match find (online s) (local_neighbors s) with
                | Some n => if truthy n then [(n, 2)] else []
                | None => []
                end)) ∧
    (∀ p c hop, p ∈ local_neighbors s →
                dict_get rt' p = Some c → (hop, 2) ∉ c).
Proof.
  intros Htopo.
  destruct (topology_ok_neighbors s Htopo) as (self & Hself & Hns & Hn).
  destruct (update_routing_table_spec s self _ Hself Hns Hn)
    as (rt' & Hrun & Hin & _).
  exists rt'. split; [exact Hrun |]. split.
  - intros p Hp Hne Hnot. rewrite (Hin p Hp Hne). unfold expected_routes.
    rewrite bool_decide_eq_false_2 by exact Hnot. reflexivity.
  - intros p c hop Hp Hc Hhop.
    destruct (Hn p Hp) as [Hne Hreg]. apply dict_get_keys in Hreg.
    rewrite (Hin p Hreg Hne) in Hc. unfold expected_routes in Hc.
    rewrite bool_decide_eq_true_2 in Hc by exact Hp.
    destruct (online s p); injection Hc as <-.
    + apply list_elem_of_singleton in Hhop. discriminate Hhop.
    + inversion Hhop.
Qed.

Lemma cost2_routes_witness :
  ∃ rt',
    _update_routing_table relay_mesh =
      (Ok tt, set_routing_table rt' relay_mesh) ∧
    (∀ p, p ∈ dict_keys (peers relay_mesh) → p ≠ server_id relay_mesh →
          p ∉ local_neighbors relay_mesh →
          dict_get rt' p =
          Some (match find (online relay_mesh) (local_neighbors relay_mesh) with
                | Some n => if truthy n then [(n, 2)] else []
                | None => []
                end)) ∧
    (∀ p c hop, p ∈ local_neighbors relay_mesh →
                dict_get rt' p = Some c → (hop, 2) ∉ c).
Proof.
  apply (cost2_routes relay_mesh).
  eexists _, ["n1"]. split; [reflexivity |]. split; [reflexivity |].
  intros n Hn. apply list_elem_of_singleton in Hn. subst n.
  split; [discriminate | eexists; reflexivity].
Defined.

(** ** Invariants of monadic code *)

Section Rules.
Context (I : Server → Prop).

Lemma returns_ret {A} (a : A) (Q : A → Prop) : Q a → returns I (ret a) Q.
  Proof. intros Ha s Hs. split; [exact Hs |]. intros b [= <-]. exact Ha. Qed.

Lemma returns_raise {A} e (Q : A → Prop) : returns I (raise e) Q.
  Proof. intros s Hs. split; [exact Hs |]. intros b [=]. Qed.

Lemma returns_get : returns I get I.
  Proof. intros s Hs. split; [exact Hs |]. intros b [= <-]. exact Hs. Qed.

Lemma keeps_modify f : (∀ s, I s → I (f s)) → keeps I (modify f).
  Proof. intros Hf s Hs. split; [apply Hf, Hs | trivial]. Qed.

Lemma returns_bind {A B} (m : M A) (k : A → M B) Q R :
    returns I m Q → (∀ a, Q a → returns I (k a) R) → returns I (bind m k) R.
  Proof.
    intros Hm Hk s Hs. destruct (Hm s Hs) as [Hs' Ha]. unfold bind.
    destruct (m s) as [[a|e] s']; simpl in *.
    - apply Hk; [apply Ha; reflexivity | exact Hs'].
    - split; [exact Hs' |]. intros b [=].
  Qed.

Lemma returns_weaken {A} (m : M A) (Q Q' : A → Prop) :
    returns I m Q → (∀ a, Q a → Q' a) → returns I m Q'.
  Proof.
    intros Hm HQ s Hs. destruct (Hm s Hs) as [Hs' Ha].
    split; [exact Hs' |]. intros a E. apply HQ, Ha, E.
  Qed.

Lemma returns_keeps {A} (m : M A) Q : returns I m Q → keeps I m.
  Proof. intros Hm. apply (returns_weaken m Q); [exact Hm | trivial]. Qed.

Lemma keeps_for_each {A} (l : list A) (body : A → M unit) :
    (∀ x, x ∈ l → keeps I (body x)) → keeps I (for_each l body).
  Proof.
    induction l as [|x l IH]; intros Hbody; cbn [for_each].
    - apply returns_ret. trivial.
    - eapply returns_bind; [apply Hbody; left |].
      intros _ _. apply IH. intros y Hy. apply Hbody. right. exact Hy.
  Qed.

Lemma keeps_try_except {A} (m : M A) (handler : exn → M A) :
    keeps I m → (∀ e, keeps I (handler e)) → keeps I (try_except m handler).
  Proof.
    intros Hm Hh s Hs. destruct (Hm s Hs) as [Hs' _]. unfold try_except.
    destruct (m s) as [[a|e] s']; simpl in *.
    - split; [exact Hs' | trivial].
    - split; [apply Hh, Hs' | trivial].
  Qed.

  (** A method that writes nothing. *)
Lemma returns_reader {A} (m : M A) :
    (∀ s, snd (m s) = s) →
    returns I m (fun a => ∃ s, I s ∧ m s = (Ok a, s)).
  Proof.
    intros Hm s Hs. rewrite Hm. split; [exact Hs |].
    intros a E. exists s. split; [exact Hs |].
    specialize (Hm s). destruct (m s) as [r s']. simpl in *. congruence.
  Qed.
End Rules.

Lemma peers_at_state k s : snd (peers_at k s) = s.
Proof. unfold peers_at. mred. destruct (dict_get (peers s) k); reflexivity. Qed.

Lemma routing_table_at_state k s : snd (routing_table_at k s) = s.
Proof.
  unfold routing_table_at. mred.
  destruct (dict_get (routing_table s) k); reflexivity.
Qed.

Lemma iter_neighbors_state p s : snd (iter_neighbors p s) = s.
Proof. unfold iter_neighbors. destruct (Peer.neighbors p); reflexivity. Qed.

Lemma deref_state r s : snd (deref r s) = s.
Proof. unfold deref. mred. destruct (heap s !! r); reflexivity. Qed.

Lemma best_relay_state ns : ∀ best s, snd (best_relay ns best s) = s.
Proof.
  induction ns as [|n ns IH]; intros best s; [reflexivity |].
  cbn [best_relay]. mred. destruct (dict_get (peers s) n) as [p|]; [|reflexivity].
  destruct (Peer.is_online p); [destruct (cost_below 2 best) |]; apply IH.
Qed.

Lemma keeps_reader {A} I (m : M A) : (∀ s, snd (m s) = s) → keeps I m.
Proof. intros Hm. eapply returns_keeps, returns_reader, Hm. Qed.

(** One step of a proof that a method keeps an invariant. *)
Ltac keeps_step :=
  lazymatch goal with
  | |- keeps _ _ => unfold keeps
  | |- returns _ (bind _ _) _ => eapply returns_bind; [| intros ? ?]
  | |- returns _ (ret _) _ => apply returns_ret; trivial
  | |- returns _ (raise _) _ => apply returns_raise
  | |- returns _ get _ => apply returns_get
  | |- returns _ (peers_at _) _ => apply keeps_reader, peers_at_state
  | |- returns _ (routing_table_at _) _ =>
      apply keeps_reader, routing_table_at_state
  | |- returns _ (iter_neighbors _) _ =>
      apply keeps_reader, iter_neighbors_state
  | |- returns _ (deref _) _ => apply keeps_reader, deref_state
  | |- returns _ (best_relay _ _) _ => apply keeps_reader, best_relay_state
  | |- returns _ (_get_next_hop _) _ =>
      apply keeps_reader; intros ?; apply get_next_hop_state
  | |- returns _ (for_each _ _) _ => apply keeps_for_each; intros ? ?
  | |- returns _ (try_except _ _) _ => apply keeps_try_except; [| intros ?]
  | |- returns _ (if ?b then _ else _) _ => destruct b
  | |- returns _ (match ?x with _ => _ end) _ => destruct x
  | |- returns _ (let _ := _ in _) _ => cbv zeta
  end.

(** ** What each method writes *)

Lemma heap_blind_stable I : heap_blind I → heap_stable I.
Proof. intros H. split; intros; apply H; assumption. Qed.

Section Writes.
Context (I : Server → Prop).

Lemma keeps_emit e : log_stable I → keeps I (emit e).
  Proof. intros H. apply keeps_modify. intros s Hs. apply H, Hs. Qed.

Lemma keeps_store_routes k c : routes_stable I → keeps I (store_routes k c).
  Proof. intros H. apply keeps_modify. intros s Hs. apply H, Hs. Qed.

Lemma keeps_enqueue r : queue_stable I → keeps I (enqueue r).
  Proof. intros H. apply keeps_modify. intros s Hs. apply H, Hs. Qed.

Lemma keeps_alloc m : heap_stable I → keeps I (alloc m).
  Proof.
    intros [H _] s Hs. split; [|trivial]. unfold alloc. mred. apply H, Hs.
  Qed.

Lemma keeps_update_route r v :
    heap_stable I → keeps I (update_message r (Message.set_route v)).
  Proof.
    intros [_ H] s Hs. split; [|trivial]. unfold update_message. mred.
    destruct (heap s !! r) as [m|] eqn:E; [|exact Hs].
    state_simpl. apply H; assumption.
  Qed.

Lemma keeps_update_routing_table :
    routes_stable I → keeps I _update_routing_table.
  Proof.
    intros H. unfold _update_routing_table.
    repeat first [apply keeps_store_routes; exact H | keeps_step].
  Qed.

Lemma keeps_forward_message r next_hop :
    log_stable I → heap_stable I → keeps I (_forward_message r next_hop).
  Proof.
    intros Hl Hh. unfold _forward_message.
    repeat first [apply keeps_emit; exact Hl
                 | apply keeps_update_route; exact Hh | keeps_step].
  Qed.

Lemma keeps_broadcast_to_neighbors r :
    log_stable I → heap_stable I → keeps I (_broadcast_to_neighbors r).
  Proof.
    intros Hl Hh. unfold _broadcast_to_neighbors.
    repeat first [apply keeps_forward_message; assumption | keeps_step].
  Qed.

Lemma keeps_handle_incoming_message r uuid now :
    log_stable I → heap_stable I →
    keeps I (_handle_incoming_message r uuid now).
  Proof.
    intros Hl Hh. unfold _handle_incoming_message.
    repeat first [apply keeps_forward_message; assumption
                 | apply keeps_emit; exact Hl
                 | apply keeps_alloc; exact Hh | keeps_step].
  Qed.

Lemma keeps_route_by_recipient r uuid now :
    log_stable I → heap_stable I → keeps I (route_by_recipient r uuid now).
  Proof.
    intros Hl Hh. unfold route_by_recipient.
    repeat first [apply keeps_forward_message; assumption
                 | apply keeps_broadcast_to_neighbors; assumption
                 | apply keeps_handle_incoming_message; assumption
                 | apply keeps_emit; exact Hl | keeps_step].
  Qed.

Lemma keeps_update_ttl r v :
    heap_blind I → keeps I (update_message r (Message.set_ttl v)).
  Proof.
    intros H s Hs. split; [|trivial]. unfold update_message. mred.
    destruct (heap s !! r) as [m|]; [|exact Hs]. state_simpl. apply H, Hs.
  Qed.

Lemma keeps_route_message r uuid now :
    log_stable I → heap_blind I → keeps I (_route_message r uuid now).
  Proof.
    intros Hl Hh. unfold _route_message.
    repeat first [apply keeps_route_by_recipient;
                    [assumption | apply heap_blind_stable; assumption]
                 | apply keeps_update_ttl; exact Hh
                 | apply keeps_emit; exact Hl | keeps_step].
  Qed.

Lemma keeps_message_processor uuid now :
    log_stable I → heap_blind I → queue_stable I →
    keeps I (_message_processor uuid now).
  Proof.
    intros Hl Hh Hq. unfold _message_processor.
    repeat first [apply keeps_route_message; assumption
                 | apply keeps_emit; exact Hl
                 | apply keeps_modify; intros ? ?; apply Hq; assumption
                 | keeps_step].
  Qed.
End Writes.

(** ** C4: TTL check and decrement *)

Lemma deref_ok s r m : heap s !! r = Some m → deref r s = (Ok m, s).
Proof. intros H. unfold deref. mred. rewrite H. reflexivity. Qed.

Lemma update_message_ok s r m f :
  heap s !! r = Some m →
  update_message r f s = (Ok tt, set_heap (<[r := f m]> (heap s)) s).
Proof. intros H. unfold update_message. mred. rewrite H. reflexivity. Qed.

Lemma set_route_same m : Message.set_route (Message.route m) m = m.
Proof. destruct m; reflexivity. Qed.

Lemma route_message_expired s r m uuid now :
  heap s !! r = Some m → Message.ttl m ≤ 0 →
  _route_message r uuid now s =
  (Ok tt, set_log (log s ++ [LogTTLExpired (Message.id m)]) s).
Proof.
  intros Hm Httl. unfold _route_message. mstep (deref_ok s r m Hm).
  destruct (Z.leb_spec (Message.ttl m) 0); [reflexivity | lia].
Qed.

Lemma route_message_live s r m uuid now :
  heap s !! r = Some m → 0 < Message.ttl m →
  _route_message r uuid now s =
  route_by_recipient r uuid now
    (set_heap (<[r := Message.set_ttl (Message.ttl m - 1) m]> (heap s)) s).
Proof.
  intros Hm Httl. unfold _route_message. mstep (deref_ok s r m Hm).
  destruct (Z.leb_spec (Message.ttl m) 0); [lia |].
  mstep (update_message_ok s r m (Message.set_ttl (Message.ttl m - 1)) Hm).
  reflexivity.
Qed.

Lemma holds_up_to_route_log_stable r m0 : log_stable (holds_up_to_route r m0).
Proof. intros l s H. exact H. Qed.

Lemma holds_up_to_route_heap_stable r m0 :
  heap_stable (holds_up_to_route r m0).
Proof.
  split.
  - intros m s (m' & Hm' & E). exists m'. split; [|exact E].
    state_simpl. apply lookup_app_l_Some, Hm'.
  - intros r' m v s (m' & Hm' & E) Hr'. state_simpl.
    destruct (decide (r' = r)) as [->|Hne].
    + exists (Message.set_route v m). split.
      * apply list_lookup_insert_eq. eapply lookup_lt_Some, Hm'.
      * assert (m = m') as -> by congruence. rewrite E. reflexivity.
    + exists m'. split; [|exact E].
      state_simpl. rewrite list_lookup_insert_ne by exact Hne. exact Hm'.
Qed.

(** C4.  A drained message whose TTL is at most 0 is dropped: the processor
    returns, and nothing but the queue and the log (the expiry warning) has
    changed, so the message is neither delivered, forwarded nor
    acknowledged, and the store is as it was.  Otherwise the TTL is
    decremented by 1 first: the processor behaves as the dispatch on the
    recipient run from the state where the TTL is already decremented, and
    the dispatch leaves the message as decremented, up to its route. *)
Theorem processor_ttl_step s r rest m uuid now :
  message_queue s = r :: rest →
  heap s !! r = Some m →
  (Message.ttl m ≤ 0 →
     _message_processor uuid now s =
     (Ok tt, set_log (log s ++ [LogTTLExpired (Message.id m)])
               (set_message_queue rest s))) ∧
  (0 < Message.ttl m →
     let m0 := Message.set_ttl (Message.ttl m - 1) m in
     let s1 := set_heap (<[r := m0]> (heap s)) (set_message_queue rest s) in
     _message_processor uuid now s =
       try_except (route_by_recipient r uuid now)
                  (fun _ => emit LogProcessorError) s1 ∧
     ∃ m', heap (snd (_message_processor uuid now s)) !! r = Some m' ∧
           Message.ttl m' = Message.ttl m - 1 ∧
           m' = Message.set_route (Message.route m') m0).
Proof.
  intros Hq Hm.
  assert (Hstep : _message_processor uuid now s =
                  try_except (_route_message r uuid now)
                    (fun _ => emit LogProcessorError)
                    (set_message_queue rest s)).
  { unfold _message_processor. mstep (get_ok s). rewrite Hq. reflexivity. }
  assert (Hm' : heap (set_message_queue rest s) !! r = Some m) by exact Hm.
  split.
  - intros Httl. rewrite Hstep. unfold try_except.
    rewrite (route_message_expired _ r m uuid now Hm' Httl). reflexivity.
  - intros Httl m0 s1.
    assert (Hrun : _message_processor uuid now s =
                   try_except (route_by_recipient r uuid now)
                     (fun _ => emit LogProcessorError) s1).
    { rewrite Hstep. unfold try_except.
      rewrite (route_message_live _ r m uuid now Hm' Httl). reflexivity. }
    split; [exact Hrun |]. rewrite Hrun.
    assert (Hkeep : keeps (holds_up_to_route r m0)
                      (try_except (route_by_recipient r uuid now)
                                  (fun _ => emit LogProcessorError))).
    { apply keeps_try_except.
      - apply keeps_route_by_recipient.
        + apply holds_up_to_route_log_stable.
        + apply holds_up_to_route_heap_stable.
      - intros e. apply keeps_emit, holds_up_to_route_log_stable. }
    destruct (Hkeep s1) as [(m' & Hm1 & E) _].
    { exists m0. split; [|symmetry; apply set_route_same].
      unfold s1. state_simpl. apply list_lookup_insert_eq.
      eapply lookup_lt_Some, Hm. }
    exists m'. split; [exact Hm1 |]. split; [|exact E].
    rewrite E. reflexivity.
Qed.

Lemma processor_ttl_step_witness :
  (Message.ttl hello ≤ 0 →
     _message_processor "uuid-a" 6 node_with_hello =
     (Ok tt, set_log (log node_with_hello ++ [LogTTLExpired (Message.id hello)])
               (set_message_queue [] node_with_hello))) ∧
  (0 < Message.ttl hello →
     let m0 := Message.set_ttl (Message.ttl hello - 1) hello in
     let s1 := set_heap (<[0%nat := m0]> (heap node_with_hello))
                 (set_message_queue [] node_with_hello) in
     _message_processor "uuid-a" 6 node_with_hello =
       try_except (route_by_recipient 0%nat "uuid-a" 6)
                  (fun _ => emit LogProcessorError) s1 ∧
     ∃ m', heap (snd (_message_processor "uuid-a" 6 node_with_hello)) !! 0%nat
             = Some m' ∧
           Message.ttl m' = Message.ttl hello - 1 ∧
           m' = Message.set_route (Message.route m') m0).
Proof.
  apply (processor_ttl_step node_with_hello 0%nat [] hello "uuid-a" 6);
    reflexivity.
Defined.

(** ** C5: acknowledgment of a local delivery *)

Lemma get_next_hop_frame destination s s' :
  routing_table s' = routing_table s →
  _get_next_hop destination s' = (fst (_get_next_hop destination s), s').
Proof.
  intros H. unfold _get_next_hop. mred. rewrite H.
  destruct (dict_get (routing_table s) destination) as [c|]; [|reflexivity].
  destruct (min_by_cost c); reflexivity.
Qed.

Lemma emit_ok e s : emit e s = (Ok tt, set_log (log s ++ [e]) s).
Proof. reflexivity. Qed.

Lemma alloc_ok m s :
  alloc m s = (Ok (length (heap s)), set_heap (heap s ++ [m]) s).
Proof. reflexivity. Qed.

Lemma forward_own_message s r m next_hop :
  heap s !! r = Some m →
  Message.route m = Some [server_id s] →
  _forward_message r next_hop s =
  (Ok tt, set_log (log s ++ [LogForwarding (Message.id m) next_hop]) s).
Proof.
  intros Hm Hroute. unfold _forward_message.
  mstep (deref_ok s r m Hm). mred. rewrite Hroute.
  rewrite bool_decide_eq_true_2 by left. reflexivity.
Qed.

(** C5 (amended).  When the processor routes a live message [m] of any kind
    whose recipient is the local node, it constructs exactly one new message,
    the acknowledgment [ack_for s m uuid now], addressed to the sender of [m]
    with content "ACK:" followed by the id of [m].  The acknowledgment is
    neither enqueued nor stored: it is handed to the simulated forward when
    the routing table yields a next hop to the sender, and is discarded
    otherwise. *)
Theorem local_delivery_acknowledges s r m uuid now :
  heap s !! r = Some m →
  Message.recipient_id m = Some (server_id s) →
  0 < Message.ttl m →
  let m0 := Message.set_ttl (Message.ttl m - 1) m in
  let s1 :=
    set_log (log s ++ [LogReceived (Message.sender_id m) (Message.content m)])
      (set_heap (<[r := m0]> (heap s) ++ [ack_for s m uuid now]) s) in
  _route_message r uuid now s =
  match fst (_get_next_hop (Message.sender_id m) s) with
  | Ok (Some h) =>
      if truthy h
      then (Ok tt, set_log (log s1 ++ [LogForwarding uuid h]) s1)
      else (Ok tt, s1)
  | Ok None => (Ok tt, s1)
  | Raise e => (Raise e, s1)
  end.
Proof.
  intros Hm Hrcpt Httl m0 s1.
  rewrite (route_message_live s r m uuid now Hm Httl). fold m0.
  set (s0 := set_heap (<[r := m0]> (heap s)) s).
  assert (Hm0 : heap s0 !! r = Some m0).
  { unfold s0. state_simpl. apply list_lookup_insert_eq.
    eapply lookup_lt_Some, Hm. }
  unfold route_by_recipient. mstep (deref_ok s0 r m0 Hm0). mstep (get_ok s0).
  replace (Message.recipient_id m0) with (Some (server_id s)) by (symmetry; exact Hrcpt).
  replace (server_id s0) with (server_id s) by reflexivity.
  rewrite String.eqb_refl.
  unfold _handle_incoming_message. mstep (deref_ok s0 r m0 Hm0).
  mstep (emit_ok (LogReceived (Message.sender_id m0) (Message.content m0)) s0).
  mstep (get_ok (set_log (log s0 ++ [LogReceived (Message.sender_id m0)
                                       (Message.content m0)]) s0)).
  state_simpl. fold (ack_for s m uuid now).
  rewrite (bind_ok _ _ _ _ _ (alloc_ok (ack_for s m uuid now) _)).
  state_simpl.
  change (set_heap (heap s0 ++ [ack_for s m uuid now])
            (set_log (log s0 ++ [LogReceived (Message.sender_id m0)
                                   (Message.content m0)]) s0)) with s1.
  unfold bind at 1.
  rewrite (get_next_hop_frame (Message.sender_id m0) s s1 eq_refl).
  replace (Message.sender_id m0) with (Message.sender_id m) by reflexivity.
  destruct (fst (_get_next_hop (Message.sender_id m) s)) as [[h|]|e];
    try reflexivity.
  destruct (truthy h); [|reflexivity].
  apply (forward_own_message s1 (length (heap s0)) (ack_for s m uuid now) h).
  - unfold s1, s0. state_simpl. apply list_lookup_middle. reflexivity.
  - reflexivity.
Qed.

Lemma local_delivery_acknowledges_witness :
  let s := node_with_hello in
  let m0 := Message.set_ttl (Message.ttl hello - 1) hello in
  let s1 :=
    set_log (log s ++ [LogReceived (Message.sender_id hello)
                         (Message.content hello)])
      (set_heap (<[0%nat := m0]> (heap s) ++ [ack_for s hello "uuid-a" 6]) s) in
  _route_message 0%nat "uuid-a" 6 s =
  match fst (_get_next_hop (Message.sender_id hello) s) with
  | Ok (Some h) =>
      if truthy h
      then (Ok tt, set_log (log s1 ++ [LogForwarding "uuid-a" h]) s1)
      else (Ok tt, s1)
  | Ok None => (Ok tt, s1)
  | Raise e => (Raise e, s1)
  end.
Proof.
  apply (local_delivery_acknowledges node_with_hello 0%nat hello "uuid-a" 6).
  - reflexivity.
  - reflexivity.
  - reflexivity.
Defined.

(** C5 (counterexample).  The acknowledgment of a text message is not put on
    the queue, and a system message addressed to the local node is
    acknowledged all the same: its acknowledgment is built and forwarded to
    "n1". *)
Lemma ack_not_enqueued_and_not_only_for_text :
  ¬ ack_enqueued_for_text node_with_hello "uuid-a" 6 ∧
  ¬ no_ack_for_other_kinds relay_mesh_with_notice "uuid-a" 6 ∧
  heap (snd (_message_processor "uuid-a" 6 relay_mesh_with_notice)) !! 1%nat
    = Some (ack_for relay_mesh_with_notice notice "uuid-a" 6) ∧
  LogForwarding "uuid-a" "n1"
    ∈ log (snd (_message_processor "uuid-a" 6 relay_mesh_with_notice)).
Proof.
  split; [|split; [|split]].
  - intros H.
    destruct (H 0%nat [] hello eq_refl eq_refl eq_refl eq_refl)
      as (a & Ha & _).
    vm_compute in Ha. inversion Ha.
  - intros H.
    assert (Hkind : Message.message_type notice ≠ TEXT) by discriminate.
    specialize (H 0%nat [] notice eq_refl eq_refl eq_refl Hkind).
    vm_compute in H. discriminate H.
  - reflexivity.
  - vm_compute. right. left.
Qed.

(** ** The peer monitor *)

Lemma store_peer_ok k p s :
  store_peer k p s = (Ok tt, set_peers (dict_set (peers s) k p) s).
Proof. reflexivity. Qed.

Lemma keeps_peer_monitor I current_time :
  log_stable I → keeps I _update_routing_table → offline_stable I →
  keeps I (_peer_monitor current_time).
Proof.
  intros Hl Hr Ho. unfold _peer_monitor.
  keeps_step. keeps_step; [keeps_step |]. keeps_step.
  intros s Hs. split; [|trivial].
  unfold bind at 1.
  pose proof (peers_at_state x s) as Hst.
  destruct (peers_at x s) as [[peer|e] s'] eqn:Hpeer; simpl in Hst; subst s';
    [|exact Hs].
  assert (Hget : dict_get (peers s) x = Some peer).
  { unfold peers_at in Hpeer. revert Hpeer. mred.
    destruct (dict_get (peers s) x); congruence. }
  mstep (get_ok s).
  destruct (negb (x =? server_id s)%string && Peer.is_online peer);
    [|exact Hs].
  destruct (current_time - Peer.last_seen peer >? timeout); [|exact Hs].
  mstep (store_peer_ok x (Peer.set_is_online false peer) s).
  refine (proj1 ((_ : keeps I (emit _ ;;; _update_routing_table)) _ _)).
  - repeat first [apply keeps_emit; exact Hl | exact Hr | keeps_step].
  - apply Ho; assumption.
Qed.

(** ** C6: last_seen of a peer that goes offline *)

(** C6 (counterexample).  A sweep of the monitor at time 100 marks "peer1",
    last seen at time 1, offline, and its [last_seen] is still 1. *)
Lemma monitor_timeout_keeps_last_seen :
  (Peer.is_online <$> dict_get (peers node_with_peer) "peer1") = Some true ∧
  (Peer.is_online <$>
     dict_get (peers (snd (_peer_monitor 100 node_with_peer))) "peer1")
    = Some false ∧
  (Peer.last_seen <$>
     dict_get (peers (snd (_peer_monitor 100 node_with_peer))) "peer1")
    = Some 1 ∧
  ¬ refreshed_when_cleared 100 node_with_peer
      (snd (_peer_monitor 100 node_with_peer)).
Proof.
  split; [reflexivity |]. split; [reflexivity |]. split; [reflexivity |].
  intros H. specialize (H "peer1" _ _ eq_refl eq_refl eq_refl eq_refl).
  discriminate H.
Qed.

Lemma unregister_peer_registry k now s :
  peers (snd (unregister_peer k now s)) =
  match dict_get (peers s) k with
  | Some p =>
      dict_set (peers s) k
        (Peer.set_last_seen now (Peer.set_is_online false p))
  | None => peers s
  end.
Proof.
  unfold unregister_peer. mstep (get_ok s).
  destruct (dict_get (peers s) k) as [p|]; [|reflexivity].
  mstep (store_peer_ok k (Peer.set_last_seen now
                            (Peer.set_is_online false p)) s).
  rewrite (bind_ok _ _ _ _ _ (emit_ok _ _)).
  set (s1 := set_log _ _).
  set (P := dict_set (peers s) k _).
  refine (proj1 ((_ : keeps (fun s' => peers s' = P)
                        (_update_routing_table ;;; ret true)) s1 _)).
  - repeat first [apply keeps_update_routing_table; intros ? ? E; exact E
                 | keeps_step].
  - reflexivity.
Qed.

Lemma last_seen_log_stable s0 :
  log_stable (fun s => ∀ k, last_seen_of s k = last_seen_of s0 k).
Proof. intros l s H. exact H. Qed.

Lemma last_seen_routes_stable s0 :
  routes_stable (fun s => ∀ k, last_seen_of s k = last_seen_of s0 k).
Proof. intros rt s H. exact H. Qed.

Lemma last_seen_offline_stable s0 :
  offline_stable (fun s => ∀ k, last_seen_of s k = last_seen_of s0 k).
Proof.
  intros k p s H Hp j. rewrite <- (H j). unfold last_seen_of. state_simpl.
  rewrite dict_get_set. destruct (String.eqb_spec k j) as [->|Hne];
    [rewrite Hp |]; reflexivity.
Qed.

(** C6 (amended).  [unregister_peer] sets [last_seen] to the current time
    on every peer it takes offline.  A sweep of the monitor clears the
    online flag of the peers it times out and never writes [last_seen]:
    every registered peer keeps the value it had. *)
Theorem offline_last_seen s k now current_time :
  refreshed_when_cleared now s (snd (unregister_peer k now s)) ∧
  ∀ j, last_seen_of (snd (_peer_monitor current_time s)) j = last_seen_of s j.
Proof.
  split.
  - intros j p p' Hp Hp' Hon Hoff. rewrite unregister_peer_registry in Hp'.
    destruct (dict_get (peers s) k) as [q|] eqn:Hq; [|congruence].
    rewrite dict_get_set in Hp'.
    destruct (String.eqb k j); [|congruence].
    injection Hp' as <-. reflexivity.
  - apply (keeps_peer_monitor
             (fun s' => ∀ j, last_seen_of s' j = last_seen_of s j)).
    + apply last_seen_log_stable.
    + apply keeps_update_routing_table, last_seen_routes_stable.
    + apply last_seen_offline_stable.
    + reflexivity.
Qed.

(** ** C7: unregistration *)

Lemma topology_ok_store s k p p' l :
  topology_ok s →
  dict_get (peers s) k = Some p →
  Peer.neighbors p' = Peer.neighbors p →
  topology_ok (set_log l (set_peers (dict_set (peers s) k p') s)).
Proof.
  intros (self & ns & Hself & Hns & Htopo) Hp Hnb.
  unfold topology_ok. state_simpl.
  destruct (String.eqb_spec k (server_id s)) as [->|Hne].
  - exists p', ns. split; [apply dict_get_set_eq |].
    split; [congruence |].
    intros n Hn. destruct (Htopo n Hn) as [Hne Hreg]. split; [exact Hne |].
    rewrite dict_get_set_ne by congruence. exact Hreg.
  - exists self, ns. split; [rewrite dict_get_set_ne by exact Hne; exact Hself |].
    split; [exact Hns |].
    intros n Hn. destruct (Htopo n Hn) as [Hne' Hreg]. split; [exact Hne' |].
    rewrite dict_get_set. destruct (String.eqb k n); [eexists; reflexivity |].
    exact Hreg.
Qed.

(** C7.  Unregistering an id that is not in the registry returns [False]
    and leaves the whole state, hence the registry, the routing table and
    the message store, unchanged.  Unregistering a registered id, on a
    well-formed topology, marks the peer offline, sets its [last_seen] to the
    current time, runs the recomputation of the routing table to completion
    on the state so updated, and returns [True]; no exception is raised in
    either case.  The table it leaves is the recomputed one: every
    registered peer other than the local node has the entry that the
    heuristic gives from the registry in which the peer is already offline,
    and the entries of other destinations are kept. *)
Theorem unregister_peer_spec s k now :
  match dict_get (peers s) k with
  | None => unregister_peer k now s = (Ok false, s)
  | Some p =>
      topology_ok s →
      let s1 :=
        set_log (log s ++ [LogUnregisteredPeer (Peer.name p) k])
          (set_peers
             (dict_set (peers s) k
                (Peer.set_last_seen now (Peer.set_is_online false p))) s) in
      ∃ rt',
        _update_routing_table s1 = (Ok tt, set_routing_table rt' s1) ∧
        unregister_peer k now s = (Ok true, set_routing_table rt' s1) ∧
        (∀ q, q ∈ dict_keys (peers s1) → q ≠ server_id s →
              dict_get rt' q =
              Some (expected_routes s1 (local_neighbors s1) q)) ∧
        (∀ d, d ∉ dict_keys (peers s1) ∨ d = server_id s →
              dict_get rt' d = dict_get (routing_table s) d)
  end.
Proof.
  destruct (dict_get (peers s) k) as [p|] eqn:Hp.
  2:{ unfold unregister_peer. mstep (get_ok s). rewrite Hp. reflexivity. }
  intros Htopo s1.
  assert (Htopo1 : topology_ok s1)
    by (apply (topology_ok_store s k p); [exact Htopo | exact Hp | reflexivity]).
  destruct (topology_ok_neighbors s1 Htopo1) as (self & Hself & Hns & Hn).
  destruct (update_routing_table_spec s1 self _ Hself Hns Hn)
    as (rt' & Hrun & Hin & Hout).
  exists rt'. split; [exact Hrun |]. split; [|split; [exact Hin | exact Hout]].
  unfold unregister_peer. mstep (get_ok s). rewrite Hp.
  mstep (store_peer_ok k (Peer.set_last_seen now
                            (Peer.set_is_online false p)) s).
  rewrite (bind_ok _ _ _ _ _ (emit_ok _ _)). fold s1.
  mstep Hrun. reflexivity.
Qed.

Lemma unregister_peer_spec_witness :
  ∃ rt',
    _update_routing_table node_after_unregister
      = (Ok tt, set_routing_table rt' node_after_unregister) ∧
    unregister_peer "peer1" 7 node_with_peer
      = (Ok true, set_routing_table rt' node_after_unregister) ∧
    (∀ q, q ∈ dict_keys (peers node_after_unregister) →
          q ≠ server_id node_with_peer →
          dict_get rt' q =
          Some (expected_routes node_after_unregister
                  (local_neighbors node_after_unregister) q)) ∧
    (∀ d, d ∉ dict_keys (peers node_after_unregister)
          ∨ d = server_id node_with_peer →
          dict_get rt' d = dict_get (routing_table node_with_peer) d).
Proof.
  apply (unregister_peer_spec node_with_peer "peer1" 7).
  eexists _, []. split; [reflexivity |]. split; [reflexivity |].
  intros n Hn. inversion Hn.
Defined.

(** Unregistering the only online neighbor "n1" of [relay_mesh], whose
    routes were computed before, empties the entries of "n1" and of "far",
    which until then were routed through "n1". *)
Lemma unregister_relay_example :
  let s := snd (_update_routing_table relay_mesh) in
  let s' := snd (unregister_peer "n1" 7 s) in
  fst (unregister_peer "n1" 7 s) = Ok true ∧
  dict_get (routing_table s) "n1" = Some [("n1", 1)] ∧
  dict_get (routing_table s) "far" = Some [("n1", 2)] ∧
  dict_get (routing_table s') "n1" = Some [] ∧
  dict_get (routing_table s') "far" = Some [].
Proof. repeat split. Qed.

Lemma unregister_unknown_peer_example :
  unregister_peer "ghost" 7 node_with_peer = (Ok false, node_with_peer).
Proof. reflexivity. Qed.

(** ** C9: the route of a forwarded message *)

(** C9 (counterexample).  The route ["node"; "n1"] does not end with the id
    of the local node, and forwarding leaves it as it is. *)
Lemma forward_does_not_append_when_id_is_inside :
  (Message.route <$>
     heap (snd (_forward_message 0%nat "n1" relay_mesh_with_returned)) !! 0%nat)
    = Some (Some ["node"; "n1"]) ∧
  ¬ appends_unless_last relay_mesh_with_returned 0%nat "n1".
Proof.
  split; [reflexivity |].
  intros H. specialize (H returned ["node"; "n1"] eq_refl eq_refl).
  vm_compute in H. discriminate H.
Qed.

(** C9 (amended).  The simulated forward of a message that has a route
    returns, logs the forward, and appends the id of the local node to the
    route exactly when the id occurs nowhere in the route. *)
Theorem forward_message_route s r m route next_hop :
  heap s !! r = Some m →
  Message.route m = Some route →
  let s1 := set_log (log s ++ [LogForwarding (Message.id m) next_hop]) s in
  _forward_message r next_hop s =
  (Ok tt,
   if bool_decide (server_id s ∈ route) then s1
   else set_heap
          (<[r := Message.set_route (Some (route ++ [server_id s])%list) m]>
             (heap s)) s1).
Proof.
  intros Hm Hroute s1. unfold _forward_message.
  mstep (deref_ok s r m Hm).
  rewrite (bind_ok _ _ _ _ _ (emit_ok _ _)). fold s1.
  mstep (get_ok s1). rewrite Hroute.
  replace (server_id s1) with (server_id s) by reflexivity.
  destruct (bool_decide (server_id s ∈ route)); [reflexivity |].
  cbn [negb].
  apply (update_message_ok s1 r m). exact Hm.
Qed.

Lemma forward_message_route_witness :
  let s := relay_mesh_with_returned in
  let s1 := set_log (log s ++ [LogForwarding (Message.id returned) "n1"]) s in
  _forward_message 0%nat "n1" s =
  (Ok tt,
   if bool_decide (server_id s ∈ ["node"; "n1"]) then s1
   else set_heap
          (<[0%nat := Message.set_route
                        (Some (["node"; "n1"] ++ [server_id s])%list) returned]>
             (heap s)) s1).
Proof.
  apply (forward_message_route relay_mesh_with_returned 0%nat returned
           ["node"; "n1"] "n1").
  - reflexivity.
  - reflexivity.
Defined.

(** ** Writes of the facade *)

Lemma registry_offline_stable I : registry_stable I → offline_stable I.
Proof. intros H k p s Hs Hp. apply H; [exact Hs |]. rewrite Hp. reflexivity. Qed.

Lemma keeps_from {A} I (m : M A) s : keeps I m → I s → I (snd (m s)).
Proof. intros H Hs. apply H, Hs. Qed.

Section FacadeWrites.
Context (I : Server → Prop).

Lemma keeps_broadcast_peer_discovery uuid now :
    heap_stable I → queue_stable I →
    keeps I (_broadcast_peer_discovery uuid now).
  Proof.
    intros Hh Hq. unfold _broadcast_peer_discovery.
    repeat first [apply keeps_alloc; exact Hh
                 | apply keeps_enqueue; exact Hq | keeps_step].
  Qed.

Lemma keeps_register_peer peer_id peer_name address now uuid now' :
    registry_stable I → log_stable I → heap_stable I → queue_stable I →
    keeps I (register_peer peer_id peer_name address now uuid now').
  Proof.
    intros Hr Hl Hh Hq s Hs. split; [|trivial].
    assert (Hrest : ∀ s', I s' →
              I (snd ((_broadcast_peer_discovery uuid now' ;;; ret true) s'))).
    { intros s' Hs'. apply keeps_from; [|exact Hs'].
      repeat first [apply keeps_broadcast_peer_discovery; assumption
                   | keeps_step]. }
    unfold register_peer. mstep (get_ok s). unfold bind at 1.
    destruct (dict_get (peers s) peer_id) as [p|] eqn:Hp.
    - rewrite (bind_ok _ _ _ _ _ (store_peer_ok _ _ _)).
      rewrite emit_ok. apply Hrest, Hl, Hr; [exact Hs |].
      rewrite Hp. reflexivity.
    - rewrite (bind_ok _ _ _ _ _ (store_peer_ok _ _ _)).
      rewrite emit_ok. apply Hrest, Hl, Hr; [exact Hs |].
      rewrite Hp. reflexivity.
  Qed.

Lemma keeps_unregister_peer peer_id now :
    registry_stable I → log_stable I → keeps I _update_routing_table →
    keeps I (unregister_peer peer_id now).
  Proof.
    intros Hr Hl Ht s Hs. split; [|trivial].
    unfold unregister_peer. mstep (get_ok s).
    destruct (dict_get (peers s) peer_id) as [p|] eqn:Hp; [|exact Hs].
    rewrite (bind_ok _ _ _ _ _ (store_peer_ok _ _ _)).
    rewrite (bind_ok _ _ _ _ _ (emit_ok _ _)).
    apply keeps_from.
    - repeat first [exact Ht | keeps_step].
    - apply Hl, Hr; [exact Hs |]. rewrite Hp. reflexivity.
  Qed.

Lemma keeps_send_message sender_id recipient_id content uuid now :
    heap_stable I → messages_blind I → queue_stable I → log_stable I →
    keeps I (send_message sender_id recipient_id content uuid now).
  Proof.
    intros Hh Hm Hq Hl. unfold send_message.
    repeat first [apply keeps_alloc; exact Hh
                 | apply keeps_enqueue; exact Hq
                 | apply keeps_emit; exact Hl
                 | apply keeps_modify; intros ? ?; apply Hm; assumption
                 | keeps_step].
  Qed.

Lemma keeps_broadcast_message sender_id content uuid now :
    heap_stable I → messages_blind I → queue_stable I → log_stable I →
    keeps I (broadcast_message sender_id content uuid now).
  Proof.
    intros Hh Hm Hq Hl. unfold broadcast_message.
    repeat first [apply keeps_alloc; exact Hh
                 | apply keeps_enqueue; exact Hq
                 | apply keeps_emit; exact Hl
                 | apply keeps_modify; intros ? ?; apply Hm; assumption
                 | keeps_step].
  Qed.

Lemma keeps_start : running_blind I → log_stable I → keeps I start.
  Proof.
    intros Hr Hl. unfold start.
    repeat first [apply keeps_emit; exact Hl
                 | apply keeps_modify; intros ? ?; apply Hr; assumption
                 | keeps_step].
  Qed.

Lemma keeps_stop : running_blind I → log_stable I → keeps I stop.
  Proof.
    intros Hr Hl. unfold stop.
    repeat first [apply keeps_emit; exact Hl
                 | apply keeps_modify; intros ? ?; apply Hr; assumption
                 | keeps_step].
  Qed.

Lemma keeps_get_network_status : keeps I get_network_status.
  Proof. apply keeps_reader. reflexivity. Qed.
End FacadeWrites.

(** An invariant that is stable under the writes of every method is kept by
    every operation. *)
Lemma keeps_run I o s :
  registry_stable I → log_stable I → heap_blind I → queue_stable I →
  running_blind I → keeps I _update_routing_table →
  (writes_store o = true → messages_blind I) →
  I s → I (run o s).
Proof.
  intros Hreg Hl Hh Hq Hrun Hrt Hm Hs.
  pose proof (heap_blind_stable I Hh) as Hh'.
  destruct o; cbn [run]; apply keeps_from; try exact Hs.
  - apply keeps_register_peer; assumption.
  - apply keeps_unregister_peer; assumption.
  - apply keeps_send_message; auto.
  - apply keeps_broadcast_message; auto.
  - apply keeps_get_network_status.
  - apply keeps_start; assumption.
  - apply keeps_stop; assumption.
  - apply keeps_message_processor; assumption.
  - apply keeps_peer_monitor;
      [assumption | assumption | apply registry_offline_stable; assumption].
  - exact Hrt.
Qed.

(** ** C8: the message store *)

(** C8 (counterexample).  In a state reached through the facade and the
    processor, the acknowledgment "uuid-a" has been created and is not in
    the store: two messages exist and [message_count] is 1. *)
Lemma acknowledgment_is_not_recorded :
  reachable node_after_hello ∧
  (Message.id <$> heap node_after_hello !! 1%nat) = Some "uuid-a" ∧
  dict_get (messages node_after_hello) "uuid-a" = None ∧
  length (heap node_after_hello) = 2%nat ∧
  (∃ st, get_network_status node_after_hello = (Ok st, node_after_hello) ∧
         message_count st = 1%nat) ∧
  ¬ all_messages_recorded node_after_hello.
Proof.
  split.
  { unfold node_after_hello, node_with_hello, node_with_routes,
      node_with_peer, node.
    do 4 constructor. constructor. }
  split; [reflexivity |]. split; [reflexivity |]. split; [reflexivity |].
  split; [eexists; split; reflexivity |].
  intros H. specialize (H 1%nat _ eq_refl). discriminate H.
Qed.

Lemma messages_unchanged_stable ms :
  let I := fun s => messages s = ms in
  registry_stable I ∧ log_stable I ∧ heap_blind I ∧ queue_stable I ∧
  running_blind I ∧ routes_stable I.
Proof. repeat split; intros ?; intros; assumption. Qed.

(** C8 (amended).  [send_message] and [broadcast_message] record the
    message they create in the store under its id, which adds one entry
    when the id is new.  No other operation writes the store: the
    acknowledgment and the discovery announcement built internally are not
    recorded.  No operation removes an id from the store. *)
Theorem store_records_facade_messages o s :
  match o with
  | OpSend sender_id recipient_id content uuid now =>
      messages (run o s) = dict_set (messages s) uuid (length (heap s)) ∧
      heap (run o s) !! length (heap s) =
        Some (Message.mk uuid sender_id (Some recipient_id) TEXT (Str content)
                now default_ttl (Some [sender_id])) ∧
      (dict_get (messages s) uuid = None →
       length (messages (run o s)) = S (length (messages s)))
  | OpBroadcast sender_id content uuid now =>
      messages (run o s) = dict_set (messages s) uuid (length (heap s)) ∧
      heap (run o s) !! length (heap s) =
        Some (Message.mk uuid sender_id None TEXT (Str content)
                now default_ttl (Some [sender_id])) ∧
      (dict_get (messages s) uuid = None →
       length (messages (run o s)) = S (length (messages s)))
  | _ => messages (run o s) = messages s
  end ∧
  ∀ k, is_Some (dict_get (messages s) k) →
       is_Some (dict_get (messages (run o s)) k).
Proof.
  assert (Hother : writes_store o = false → messages (run o s) = messages s).
  { intros Ho.
    destruct (messages_unchanged_stable (messages s))
      as (H1 & H2 & H3 & H4 & H5 & H6).
    apply (keeps_run (fun s' => messages s' = messages s)); try assumption.
    - apply keeps_update_routing_table, H6.
    - rewrite Ho. discriminate.
    - reflexivity. }
  assert (Hset : ∀ (d : dict ref) uuid r k,
            is_Some (dict_get d k) → is_Some (dict_get (dict_set d uuid r) k)).
  { intros d uuid r k Hk. rewrite dict_get_set.
    destruct (String.eqb uuid k); [eexists; reflexivity | exact Hk]. }
  assert (Hlen : ∀ (d : dict ref) uuid r,
            dict_get d uuid = None →
            length (dict_set d uuid r) = S (length d)).
  { intros d uuid r Hnone. rewrite dict_set_length. unfold dict_mem.
    rewrite Hnone. reflexivity. }
  destruct o;
    try (split; [apply Hother; reflexivity
                | intros k Hk; rewrite Hother by reflexivity; exact Hk]).
  - cbn [run]. unfold send_message. mred.
    split; [split; [reflexivity | split] |].
    + apply list_lookup_middle. reflexivity.
    + apply Hlen.
    + apply Hset.
  - cbn [run]. unfold broadcast_message. mred.
    split; [split; [reflexivity | split] |].
    + apply list_lookup_middle. reflexivity.
    + apply Hlen.
    + apply Hset.
Qed.

(** ** C10: no neighbor is ever added *)

Lemma no_neighbors_recomputation s :
  no_neighbors s →
  ∃ rt',
    _update_routing_table s = (Ok tt, set_routing_table rt' s) ∧
    ∀ d c, dict_get rt' d = Some c → c = [].
Proof.
  intros (Hnb & [self Hself] & Hrt).
  destruct (update_routing_table_spec s self [] Hself (Hnb _ _ Hself))
    as (rt' & Hrun & Hin & Hout).
  { intros n Hn. inversion Hn. }
  exists rt'. split; [exact Hrun |].
  intros d c Hd.
  destruct (decide (d ∈ dict_keys (peers s) ∧ d ≠ server_id s)) as [[H1 H2]|H].
  - rewrite (Hin d H1 H2) in Hd. injection Hd as <-. reflexivity.
  - rewrite Hout in Hd.
    + exact (Hrt d c Hd).
    + destruct (decide (d = server_id s)); [right; assumption |].
      left. intros Hd'. apply H. split; assumption.
Qed.

Lemma no_neighbors_stable :
  registry_stable no_neighbors ∧ log_stable no_neighbors ∧
  heap_blind no_neighbors ∧ queue_stable no_neighbors ∧
  running_blind no_neighbors ∧ messages_blind no_neighbors ∧
  keeps no_neighbors _update_routing_table.
Proof.
  split; [|split; [|split; [|split; [|split; [|split]]]]];
    try (intros ?; intros; assumption).
  - intros k p' s (Hnb & Hself & Hrt) Hp'. unfold no_neighbors. state_simpl.
    split; [|split; [|exact Hrt]].
    + intros j q. rewrite dict_get_set.
      destruct (String.eqb k j); [|apply Hnb].
      intros [= <-]. rewrite Hp'.
      destruct (dict_get (peers s) k) as [p|] eqn:Hp; [|reflexivity].
      exact (Hnb k p Hp).
    + rewrite dict_get_set.
      destruct (String.eqb k (server_id s)); [eexists; reflexivity | exact Hself].
  - intros s H. split; [|trivial].
    destruct (no_neighbors_recomputation s H) as (rt' & Hrun & Hempty).
    rewrite Hrun. destruct H as (Hnb & Hself & _).
    split; [exact Hnb |]. split; [exact Hself | exact Hempty].
Qed.

Lemma init_no_neighbors id name uuid now :
  no_neighbors (__init__ id name uuid now).
Proof.
  unfold __init__, no_neighbors. state_simpl. cbn [dict_get].
  split; [|split].
  - intros k p.
    destruct (String.eqb _ k); [intros [= <-]; reflexivity | discriminate].
  - rewrite String.eqb_refl. eexists; reflexivity.
  - intros d c [=].
Qed.

Lemma reachable_invariant s : reachable s → no_neighbors s.
Proof.
  induction 1 as [id name uuid now | s o Hs IH].
  - apply init_no_neighbors.
  - destruct no_neighbors_stable as (H1 & H2 & H3 & H4 & H5 & H6 & H7).
    apply keeps_run; auto.
Qed.

(** C10.  In every reachable state every registered peer, the local node
    included, has the empty neighbor set.  Hence a broadcast forwards to
    nobody (it returns and leaves the state, log included, as it is), and a
    recomputation of the routing table returns a table all of whose
    candidate maps are empty. *)
Theorem reachable_no_neighbors s :
  reachable s →
  (∀ k p, dict_get (peers s) k = Some p → Peer.neighbors p = Some []) ∧
  (∀ r, _broadcast_to_neighbors r s = (Ok tt, s)) ∧
  (∃ rt',
     _update_routing_table s = (Ok tt, set_routing_table rt' s) ∧
     ∀ d c, dict_get rt' d = Some c → c = []).
Proof.
  intros Hreach. pose proof (reachable_invariant s Hreach) as Hinv.
  split; [exact (proj1 Hinv) |]. split.
  - intros r. destruct Hinv as (Hnb & [self Hself] & _).
    unfold _broadcast_to_neighbors. mstep (get_ok s).
    mstep (peers_at_ok s _ _ Hself).
    mstep (iter_neighbors_ok s _ _ (Hnb _ _ Hself)). reflexivity.
  - apply no_neighbors_recomputation, Hinv.
Qed.

Lemma reachable_no_neighbors_witness :
  (∀ k p, dict_get (peers node_with_peer) k = Some p →
          Peer.neighbors p = Some []) ∧
  (∀ r, _broadcast_to_neighbors r node_with_peer = (Ok tt, node_with_peer)) ∧
  (∃ rt',
     _update_routing_table node_with_peer
       = (Ok tt, set_routing_table rt' node_with_peer) ∧
     ∀ d c, dict_get rt' d = Some c → c = []).
Proof.
  apply (reachable_no_neighbors node_with_peer).
  unfold node_with_peer, node. constructor. constructor.
Defined.

(** Every reachable state has a well-formed topology. *)
Lemma reachable_topology_ok s : reachable s → topology_ok s.
Proof.
  intros Hreach.
  destruct (reachable_invariant s Hreach) as (Hnb & [self Hself] & _).
  exists self, []. split; [exact Hself |]. split; [exact (Hnb _ _ Hself) |].
  intros n Hn. inversion Hn.
Qed.

(** * Further properties of the node *)

(** ** Registration *)

Lemma dict_keys_set {V} (d : dict V) k v :
  dict_keys (dict_set d k v) =
  if dict_mem k d then dict_keys d else (dict_keys d ++ [k])%list.
Proof.
  unfold dict_mem, dict_keys. induction d as [|[k0 v0] d IH]; simpl.
  - reflexivity.
  - destruct (String.eqb_spec k0 k) as [->|Hne]; simpl; [reflexivity |].
    rewrite IH. destruct (dict_get d k); reflexivity.
Qed.

Lemma dict_set_elem {V} (d : dict V) k v : (k, v) ∈ dict_set d k v.
Proof.
  induction d as [|[k0 v0] d IH]; simpl; [left |].
  destruct (String.eqb k0 k); [left | right; exact IH].
Qed.

Lemma not_serialisable (P : dict Peer.t) k p :
  (k, p) ∈ P → json_serialisable p = false →
  forallb json_serialisable (map snd P) = false.
Proof.
  intros Hin Hp. induction P as [|[k0 p0] P IH]; [inversion Hin |].
  cbn [map forallb snd]. apply elem_of_cons in Hin as [[= <- <-]|Hin].
  - rewrite Hp. reflexivity.
  - rewrite (IH Hin). apply andb_false_r.
Qed.

(** The state of [register_peer] when the discovery announcement starts. *)
Lemma register_peer_unfold s peer_id peer_name address now uuid now' :
  let old := dict_get (peers s) peer_id in
  let s1 :=
    set_log (log s ++ [registered_event old peer_id peer_name])
      (set_peers
         (dict_set (peers s) peer_id
            (registered_record old peer_id peer_name address now)) s) in
  register_peer peer_id peer_name address now uuid now' s =
  (_broadcast_peer_discovery uuid now' ;;; ret true) s1.
Proof.
  intros old s1. unfold register_peer. mstep (get_ok s). unfold bind at 1.
  subst s1 old.
  destruct (dict_get (peers s) peer_id) as [p|];
    rewrite (bind_ok _ _ _ _ _ (store_peer_ok _ _ _)), emit_ok; reflexivity.
Qed.

Lemma discovery_registry uuid now s :
  peers (snd ((_broadcast_peer_discovery uuid now ;;; ret true) s)) = peers s.
Proof.
  apply (keeps_from (fun s' => peers s' = peers s)); [|reflexivity].
  repeat first [apply keeps_broadcast_peer_discovery;
                  [split; intros; assumption | intros ? ? ?; assumption]
               | keeps_step].
Qed.

(** X1.  [register_peer] is an upsert: afterwards the id is bound to the
    record built from the arguments, online and last seen at the time of the
    call; every other id is bound as before; and the registry has the same
    ids in the same order, with the new id at the end if it was not
    registered.  This holds whether the call returns or raises. *)
Theorem register_peer_upsert s peer_id peer_name address now uuid now' :
  let s' := snd (register_peer peer_id peer_name address now uuid now' s) in
  dict_get (peers s') peer_id =
    Some (registered_record (dict_get (peers s) peer_id)
            peer_id peer_name address now) ∧
  (∀ k, k ≠ peer_id → dict_get (peers s') k = dict_get (peers s) k) ∧
  dict_keys (peers s') =
    if dict_mem peer_id (peers s) then dict_keys (peers s)
    else (dict_keys (peers s) ++ [peer_id])%list.
Proof.
  intros s'. subst s'. rewrite register_peer_unfold, discovery_registry.
  state_simpl. split; [apply dict_get_set_eq |]. split.
  - intros k Hk. apply dict_get_set_ne. congruence.
  - apply dict_keys_set.
Qed.

Lemma registered_record_holds_set s peer_id peer_name address now :
  dict_get (peers s) peer_id = None ∨ reachable s →
  json_serialisable
    (registered_record (dict_get (peers s) peer_id)
       peer_id peer_name address now) = false.
Proof.
  intros [Hnew|Hreach].
  - rewrite Hnew. reflexivity.
  - destruct (dict_get (peers s) peer_id) as [p|] eqn:Hp; [|reflexivity].
    destruct (reachable_invariant s Hreach) as (Hnb & _).
    unfold registered_record, json_serialisable. cbn [Peer.neighbors].
    rewrite (Hnb _ _ Hp). reflexivity.
Qed.

(** X2.  Registering an id that is not yet registered, or registering any
    id on a node in a reachable state, raises [TypeError]: the record just
    written holds a neighbor set, which the discovery announcement cannot
    serialise.  The registry and the log are written all the same; no
    message is created, queued or stored. *)
Theorem register_peer_raises s peer_id peer_name address now uuid now' :
  dict_get (peers s) peer_id = None ∨ reachable s →
  let old := dict_get (peers s) peer_id in
  register_peer peer_id peer_name address now uuid now' s =
  (Raise TypeError,
   set_log (log s ++ [registered_event old peer_id peer_name])
     (set_peers
        (dict_set (peers s) peer_id
           (registered_record old peer_id peer_name address now)) s)).
Proof.
  intros Hcase old. rewrite register_peer_unfold. fold old.
  unfold _broadcast_peer_discovery. mred.
  rewrite (not_serialisable _ peer_id
             (registered_record old peer_id peer_name address now)).
  - reflexivity.
  - apply dict_set_elem.
  - apply registered_record_holds_set, Hcase.
Qed.

Lemma register_peer_raises_witness :
  register_alice node =
  (Raise TypeError,
   set_log (log node ++ [registered_event None "peer1" "Alice"])
     (set_peers
        (dict_set (peers node) "peer1"
           (registered_record None "peer1" "Alice" "192.168.1.101" 1)) node)).
Proof.
  apply (register_peer_raises node "peer1" "Alice" "192.168.1.101" 1
           "uuid-1" 1).
  left. reflexivity.
Defined.

(** ** What no operation undoes *)

Lemma registered_stable sid k :
  let I := fun s => server_id s = sid ∧ is_Some (dict_get (peers s) k) in
  registry_stable I ∧ log_stable I ∧ heap_blind I ∧ queue_stable I ∧
  running_blind I ∧ routes_stable I ∧ messages_blind I.
Proof.
  split;
    [|repeat split; intros; match goal with H : _ ∧ _ |- _ => apply H end].
  intros j p' s [Hid Hk] _. split; [exact Hid |]. state_simpl.
  rewrite dict_get_set. destruct (String.eqb j k); [eexists; reflexivity |].
  exact Hk.
Qed.

(** X3.  No operation changes the id of the local node, and no operation
    removes a peer from the registry: a peer that has unregistered or has
    timed out keeps its record. *)
Theorem registry_never_shrinks o s :
  server_id (run o s) = server_id s ∧
  ∀ k, is_Some (dict_get (peers s) k) → is_Some (dict_get (peers (run o s)) k).
Proof.
  assert (H : ∀ k, is_Some (dict_get (peers s) k) →
                   server_id (run o s) = server_id s ∧
                   is_Some (dict_get (peers (run o s)) k)).
  { intros k Hk.
    destruct (registered_stable (server_id s) k)
      as (H1 & H2 & H3 & H4 & H5 & H6 & H7).
    apply (keeps_run
             (fun s' => server_id s' = server_id s ∧
                        is_Some (dict_get (peers s') k))); try assumption.
    - apply keeps_update_routing_table, H6.
    - intros _. exact H7.
    - split; [reflexivity | exact Hk]. }
  split; [|intros k Hk; apply H, Hk].
  apply (keeps_run (fun s' => server_id s' = server_id s));
    try (intros ?; intros; assumption).
  - apply keeps_update_routing_table. intros ? ? E. exact E.
  - intros _ ? ? E. exact E.
  - reflexivity.
Qed.

(** ** The queue *)

Lemma queue_unchanged_stable q :
  let I := fun s => message_queue s = q in
  registry_stable I ∧ log_stable I ∧ heap_blind I ∧ running_blind I ∧
  routes_stable I ∧ messages_blind I.
Proof. repeat split; intros ?; intros; assumption. Qed.

(** X4.  The queue is first in, first out, and only the facade feeds it.
    [send_message] and [broadcast_message] put the message they create at
    the tail.  An iteration of the processor removes the head, if any, and
    adds nothing: neither an acknowledgment nor a forwarded message is
    queued again.  [register_peer] puts its announcement at the tail when
    the registry can be serialised and leaves the queue alone when it
    raises.  Every other operation leaves the queue as it is. *)
Theorem queue_discipline o s :
  message_queue (run o s) =
  match o with
  | OpSend _ _ _ _ _ | OpBroadcast _ _ _ _ =>
      (message_queue s ++ [length (heap s)])%list
  | OpProcess _ _ => tail (message_queue s)
  | OpRegister _ _ _ _ _ _ =>
      if forallb json_serialisable (map snd (peers (run o s)))
      then (message_queue s ++ [length (heap s)])%list
      else message_queue s
  | _ => message_queue s
  end.
Proof.
  destruct (queue_unchanged_stable (message_queue s))
    as (H1 & H2 & H3 & H4 & H5 & H6).
  destruct o; cbn [run].
  - assert (Hp : peers (snd (register_peer peer_id peer_name address now
                               uuid now' s)) =
                 dict_set (peers s) peer_id
                   (registered_record (dict_get (peers s) peer_id)
                      peer_id peer_name address now)).
    { rewrite register_peer_unfold, discovery_registry. reflexivity. }
    rewrite Hp. rewrite register_peer_unfold.
    unfold _broadcast_peer_discovery. mred.
    destruct (forallb json_serialisable _); reflexivity.
  - apply (keeps_from (fun s' => message_queue s' = message_queue s));
      [|reflexivity].
    apply keeps_unregister_peer; try assumption.
    apply keeps_update_routing_table, H5.
  - reflexivity.
  - reflexivity.
  - reflexivity.
  - reflexivity.
  - reflexivity.
  - unfold _message_processor. mstep (get_ok s).
    destruct (message_queue s) as [|r rest] eqn:Hq; [exact Hq |].
    rewrite (bind_ok _ _ _ _ _ (eq_refl : modify (set_message_queue rest) s
                                          = (Ok tt, set_message_queue rest s))).
    destruct (queue_unchanged_stable rest) as (G1 & G2 & G3 & G4 & G5 & G6).
    apply (keeps_from (fun s' => message_queue s' = rest)); [|reflexivity].
    apply keeps_try_except.
    + apply keeps_route_message; assumption.
    + intros e. apply keeps_emit, G2.
  - apply (keeps_from (fun s' => message_queue s' = message_queue s));
      [|reflexivity].
    apply keeps_peer_monitor; try assumption.
    + apply keeps_update_routing_table, H5.
    + apply registry_offline_stable, H1.
  - apply (keeps_from (fun s' => message_queue s' = message_queue s));
      [|reflexivity].
    apply keeps_update_routing_table, H5.
Qed.

(** ** The status report *)

Lemma status_peers_lookup (P : dict Peer.t) k :
  dict_get (map (fun kv => (fst kv, peer_status (snd kv))) P) k =
  peer_status <$> dict_get P k.
Proof.
  induction P as [|[k0 p0] P IH]; [reflexivity |].
  cbn [map dict_get fst snd]. destruct (String.eqb k0 k); [reflexivity | exact IH].
Qed.

(** X5.  [get_network_status] writes nothing and reports the registry as
    it is: one entry per registered id, in the order of the registry, with
    the name, address, online flag and last-seen time of the record, and
    with its neighbors as a list, which is empty when the record has no
    neighbor set.  The count is the number of ids in the message store, and
    the routing table is reported as it is. *)
Theorem network_status_reports_registry s :
  ∃ st,
    get_network_status s = (Ok st, s) ∧
    status_server_id st = server_id s ∧
    dict_keys (status_peers st) = dict_keys (peers s) ∧
    (∀ k, dict_get (status_peers st) k = peer_status <$> dict_get (peers s) k) ∧
    (∀ k p, dict_get (peers s) k = Some p → Peer.neighbors p = None →
            status_neighbors <$> dict_get (status_peers st) k = Some []) ∧
    status_routing_table st = routing_table s ∧
    message_count st = length (dict_keys (messages s)).
Proof.
  eexists. split; [reflexivity |]. cbn [status_server_id status_peers
    status_routing_table message_count].
  split; [reflexivity |]. split.
  { unfold dict_keys. rewrite map_map. reflexivity. }
  split; [apply status_peers_lookup |]. split.
  - intros k p Hp Hnone. rewrite status_peers_lookup, Hp.
    cbn [fmap option_fmap option_map]. unfold peer_status.
    cbn [status_neighbors]. rewrite Hnone. reflexivity.
  - split; [reflexivity |]. unfold dict_keys. rewrite length_map. reflexivity.
Qed.

(** ** Routes after a recomputation *)

(** X6.  After a recomputation on a well-formed topology, the next hop to a
    registered peer other than the local node is: the peer itself when it
    is an online direct neighbor; the first online neighbor of the local
    node when the peer is not a neighbor; and in the remaining cases (an
    offline neighbor, no online neighbor, or a first online neighbor with an
    empty id) the lookup raises [ValueError].  A destination that is neither
    registered nor in the table before has no route. *)
Theorem next_hop_after_recomputation s :
  topology_ok s →
  let s' := snd (_update_routing_table s) in
  let ns := local_neighbors s in
  (∀ p, p ∈ dict_keys (peers s) → p ≠ server_id s →
        fst (_get_next_hop p s') =
        if bool_decide (p ∈ ns) then
          if online s p then Ok (Some p) else Raise ValueError
        else
          match find (online s) ns with
          | Some n => if truthy n then Ok (Some n) else Raise ValueError
          | None => Raise ValueError
          end) ∧
  (∀ d, d ∉ dict_keys (peers s) → dict_get (routing_table s) d = None →
        fst (_get_next_hop d s') = Ok None).
Proof.
  intros Htopo s' ns.
  destruct (topology_ok_neighbors s Htopo) as (self & Hself & Hns & Hn).
  destruct (update_routing_table_spec s self _ Hself Hns Hn)
    as (rt' & Hrun & Hin & Hout).
  subst s'. rewrite Hrun. cbn [snd]. split.
  - intros p Hp Hne. unfold _get_next_hop. mred.
    rewrite (Hin p Hp Hne). unfold expected_routes. fold ns.
    destruct (bool_decide (p ∈ ns)).
    + destruct (online s p); reflexivity.
    + destruct (find (online s) ns) as [n|]; [|reflexivity].
      destruct (truthy n); reflexivity.
  - intros d Hd Hnone. unfold _get_next_hop. mred.
    rewrite Hout by (left; exact Hd). rewrite Hnone. reflexivity.
Qed.

Lemma next_hop_after_recomputation_witness :
  let s' := snd (_update_routing_table relay_mesh) in
  let ns := local_neighbors relay_mesh in
  (∀ p, p ∈ dict_keys (peers relay_mesh) → p ≠ server_id relay_mesh →
        fst (_get_next_hop p s') =
        if bool_decide (p ∈ ns) then
          if online relay_mesh p then Ok (Some p) else Raise ValueError
        else
          match find (online relay_mesh) ns with
          | Some n => if truthy n then Ok (Some n) else Raise ValueError
          | None => Raise ValueError
          end) ∧
  (∀ d, d ∉ dict_keys (peers relay_mesh) →
        dict_get (routing_table relay_mesh) d = None →
        fst (_get_next_hop d s') = Ok None).
Proof.
  apply (next_hop_after_recomputation relay_mesh).
  eexists _, ["n1"]. split; [reflexivity |]. split; [reflexivity |].
  intros n Hn. apply list_elem_of_singleton in Hn. subst n.
  split; [discriminate | eexists; reflexivity].
Defined.

(** X7.  The recomputation starts from the registry alone.  On a
    well-formed topology, the entry it leaves for a registered peer other
    than the local node does not depend on the table it started from, and
    running it a second time returns and changes no lookup. *)
Theorem recomputation_idempotent s :
  topology_ok s →
  let s1 := snd (_update_routing_table s) in
  (∀ rt0 p, p ∈ dict_keys (peers s) → p ≠ server_id s →
     dict_get
       (routing_table (snd (_update_routing_table (set_routing_table rt0 s))))
       p
     = dict_get (routing_table s1) p) ∧
  ∃ rt2,
    _update_routing_table s1 = (Ok tt, set_routing_table rt2 s1) ∧
    ∀ d, dict_get rt2 d = dict_get (routing_table s1) d.
Proof.
  intros Htopo s1.
  destruct (topology_ok_neighbors s Htopo) as (self & Hself & Hns & Hn).
  destruct (update_routing_table_spec s self _ Hself Hns Hn)
    as (rt1 & Hrun1 & Hin1 & Hout1).
  assert (Hs1 : s1 = set_routing_table rt1 s) by (subst s1; rewrite Hrun1; reflexivity).
  split.
  - intros rt0 p Hp Hne.
    destruct (update_routing_table_spec (set_routing_table rt0 s) self _
                Hself Hns Hn) as (rt0' & Hrun0 & Hin0 & _).
    rewrite Hrun0, Hs1. state_simpl.
    rewrite (Hin0 p Hp Hne), (Hin1 p Hp Hne). reflexivity.
  - destruct (update_routing_table_spec (set_routing_table rt1 s) self _
                Hself Hns Hn) as (rt2 & Hrun2 & Hin2 & Hout2).
    exists rt2. rewrite Hs1. split; [exact Hrun2 |].
    intros d. state_simpl.
    destruct (decide (d ∈ dict_keys (peers s) ∧ d ≠ server_id s)) as [[H1 H2]|H].
    + rewrite (Hin2 d H1 H2), (Hin1 d H1 H2). reflexivity.
    + apply Hout2. state_simpl.
      destruct (decide (d = server_id s)); [right; assumption |].
      left. intros Hd. apply H. split; assumption.
Qed.

Lemma recomputation_idempotent_witness :
  let s1 := snd (_update_routing_table relay_mesh) in
  (∀ rt0 p, p ∈ dict_keys (peers relay_mesh) → p ≠ server_id relay_mesh →
     dict_get
       (routing_table
          (snd (_update_routing_table (set_routing_table rt0 relay_mesh))))
       p
     = dict_get (routing_table s1) p) ∧
  ∃ rt2,
    _update_routing_table s1 = (Ok tt, set_routing_table rt2 s1) ∧
    ∀ d, dict_get rt2 d = dict_get (routing_table s1) d.
Proof.
  apply (recomputation_idempotent relay_mesh).
  eexists _, ["n1"]. split; [reflexivity |]. split; [reflexivity |].
  intros n Hn. apply list_elem_of_singleton in Hn. subst n.
  split; [discriminate | eexists; reflexivity].
Defined.

(** ** Routing of a message on a topology with neighbors *)

Lemma forward_message_run s r m route next_hop :
  heap s !! r = Some m →
  Message.route m = Some route →
  _forward_message r next_hop s = (Ok tt, forwarded r m route next_hop s).
Proof.
  intros Hm Hroute. unfold _forward_message, forwarded.
  mstep (deref_ok s r m Hm).
  rewrite (bind_ok _ _ _ _ _ (emit_ok _ _)).
  set (s1 := set_log _ s). mstep (get_ok s1). rewrite Hroute.
  replace (server_id s1) with (server_id s) by reflexivity.
  destruct (bool_decide (server_id s ∈ route)); [reflexivity |].
  cbn [negb]. apply (update_message_ok s1 r m). exact Hm.
Qed.

(** X8.  A live message addressed to another node is handled in one of
    three ways, after its TTL has been decremented: it is handed to the
    simulated forward when the lookup yields a next hop with a non-empty id;
    it is dropped with a warning when the lookup yields none, or yields the
    empty id; and the exception of the lookup leaves the processor's
    dispatch when the candidate map of the recipient is empty.  In no case
    is the message queued again or the sender told. *)
Theorem route_direct_message s r m recipient route uuid now :
  heap s !! r = Some m →
  Message.recipient_id m = Some recipient →
  recipient ≠ server_id s →
  0 < Message.ttl m →
  Message.route m = Some route →
  let m0 := Message.set_ttl (Message.ttl m - 1) m in
  let s0 := set_heap (<[r := m0]> (heap s)) s in
  let dropped := set_log (log s ++ [LogNoRoute recipient]) s0 in
  _route_message r uuid now s =
  match fst (_get_next_hop recipient s) with
  | Ok (Some h) =>
      if truthy h then (Ok tt, forwarded r m0 route h s0)
      else (Ok tt, dropped)
  | Ok None => (Ok tt, dropped)
  | Raise e => (Raise e, s0)
  end.
Proof.
  intros Hm Hrcpt Hne Httl Hroute m0 s0 dropped.
  rewrite (route_message_live s r m uuid now Hm Httl). fold m0 s0.
  assert (Hm0 : heap s0 !! r = Some m0).
  { unfold s0. state_simpl. apply list_lookup_insert_eq.
    eapply lookup_lt_Some, Hm. }
  unfold route_by_recipient. mstep (deref_ok s0 r m0 Hm0). mstep (get_ok s0).
  replace (Message.recipient_id m0) with (Some recipient)
    by (symmetry; exact Hrcpt).
  replace (server_id s0) with (server_id s) by reflexivity.
  destruct (String.eqb_spec recipient (server_id s)) as [E|_]; [contradiction |].
  unfold bind at 1.
  rewrite (get_next_hop_frame recipient s s0 eq_refl).
  destruct (fst (_get_next_hop recipient s)) as [[h|]|e]; try reflexivity.
  destruct (truthy h); [|reflexivity].
  apply forward_message_run; [exact Hm0 | exact Hroute].
Qed.

Lemma route_direct_message_witness :
  let s := relay_mesh_with_to_far in
  let m0 := Message.set_ttl (Message.ttl to_far - 1) to_far in
  let s0 := set_heap (<[0%nat := m0]> (heap s)) s in
  let dropped := set_log (log s ++ [LogNoRoute "far"]) s0 in
  _route_message 0%nat "uuid-a" 6 s =
  match fst (_get_next_hop "far" s) with
  | Ok (Some h) =>
      if truthy h then (Ok tt, forwarded 0%nat m0 ["n1"] h s0)
      else (Ok tt, dropped)
  | Ok None => (Ok tt, dropped)
  | Raise e => (Raise e, s0)
  end.
Proof.
  apply (route_direct_message relay_mesh_with_to_far 0%nat to_far "far"
           ["n1"] "uuid-a" 6).
  - reflexivity.
  - reflexivity.
  - discriminate.
  - reflexivity.
  - reflexivity.
Defined.

Lemma forwarded_message r m route next_hop s :
  heap s !! r = Some m →
  ∃ m1 route1,
    heap (forwarded r m route next_hop s) !! r = Some m1 ∧
    Message.id m1 = Message.id m ∧
    (Message.route m = Some route → Message.route m1 = Some route1) ∧
    server_id s ∈ route1 ∧
    forwarded_to_all r m route [next_hop] s = forwarded r m route next_hop s ∧
    ∀ targets,
      forwarded_to_all r m1 route1 targets (forwarded r m route next_hop s) =
      forwarded_to_all r m route (next_hop :: targets) s.
Proof.
  intros Hm. unfold forwarded, forwarded_to_all.
  destruct (bool_decide (server_id s ∈ route)) eqn:Hin.
  - apply bool_decide_eq_true_1 in Hin.
    exists m, route. split; [exact Hm |]. split; [reflexivity |].
    split; [trivial |]. split; [exact Hin |]. split; [reflexivity |].
    intros targets. state_simpl.
    rewrite bool_decide_eq_true_2 by exact Hin. cbn [orb map].
    rewrite <- app_assoc. reflexivity.
  - exists (Message.set_route (Some (route ++ [server_id s])%list) m),
      (route ++ [server_id s])%list.
    split.
    { state_simpl. apply list_lookup_insert_eq. eapply lookup_lt_Some, Hm. }
    split; [reflexivity |]. split; [reflexivity |].
    split; [apply elem_of_app; right; left |]. split; [reflexivity |].
    intros targets. state_simpl.
    rewrite bool_decide_eq_true_2 by (apply elem_of_app; right; left).
    cbn [orb map Message.id Message.set_route].
    rewrite <- app_assoc. reflexivity.
Qed.

Lemma forwarded_registry r m route next_hop s :
  peers (forwarded r m route next_hop s) = peers s ∧
  server_id (forwarded r m route next_hop s) = server_id s.
Proof.
  unfold forwarded. destruct (bool_decide (server_id s ∈ route)); split; reflexivity.
Qed.

Lemma filter_online_forwarded r m route next_hop s ns :
  List.filter (online (forwarded r m route next_hop s)) ns =
  List.filter (online s) ns.
Proof.
  apply List.filter_ext. intros n. unfold online.
  rewrite (proj1 (forwarded_registry r m route next_hop s)). reflexivity.
Qed.

Lemma forwarded_to_nobody r m route s : forwarded_to_all r m route [] s = s.
Proof.
  unfold forwarded_to_all. rewrite orb_true_r. cbn [map].
  rewrite app_nil_r. destruct s; reflexivity.
Qed.

Lemma broadcast_loop r ns : ∀ s m route,
  heap s !! r = Some m →
  Message.route m = Some route →
  (∀ n, n ∈ ns → is_Some (dict_get (peers s) n)) →
  for_each ns
    (fun peer_id =>
       p <- peers_at peer_id ;;
       if Peer.is_online p then _forward_message r peer_id else ret tt) s =
  (Ok tt, forwarded_to_all r m route (List.filter (online s) ns) s).
Proof.
  induction ns as [|n ns IH]; intros s m route Hm Hroute Hreg.
  - cbn [for_each List.filter]. rewrite forwarded_to_nobody. reflexivity.
  - destruct (Hreg n) as [p Hp]; [left |].
    assert (Hreg' : ∀ n', n' ∈ ns → is_Some (dict_get (peers s) n'))
      by (intros n' Hn'; apply Hreg; right; exact Hn').
    cbn [for_each List.filter]. unfold online at 1. rewrite Hp.
    destruct (Peer.is_online p) eqn:Hon.
    + assert (Hbody :
        (p0 <- peers_at n ;;
         if Peer.is_online p0 then _forward_message r n else ret tt) s =
        (Ok tt, forwarded r m route n s)).
      { mstep (peers_at_ok s n p Hp). rewrite Hon.
        apply forward_message_run; assumption. }
      mstep Hbody.
      destruct (forwarded_message r m route n s Hm)
        as (m1 & route1 & Hm1 & Hid & Hr1 & _ & _ & Hall).
      rewrite (IH _ m1 route1 Hm1 (Hr1 Hroute)).
      * rewrite filter_online_forwarded, Hall. reflexivity.
      * intros n' Hn'. rewrite (proj1 (forwarded_registry r m route n s)).
        apply Hreg', Hn'.
    + assert (Hbody :
        (p0 <- peers_at n ;;
         if Peer.is_online p0 then _forward_message r n else ret tt) s =
        (Ok tt, s)).
      { mstep (peers_at_ok s n p Hp). rewrite Hon. reflexivity. }
      mstep Hbody. apply IH; assumption.
Qed.

(** X9.  On a topology whose local node has registered neighbors, a
    broadcast of a message that has a route, run without another task in
    between, is handed to the simulated forward once for every online
    neighbor, in iteration order, and to no offline neighbor.  The id of the
    local node is appended to the route at most once, at the first forward,
    when it is not in the route; nothing but the log and that route is
    written. *)
Theorem broadcast_reaches_online_neighbors s r m route :
  topology_ok s →
  heap s !! r = Some m →
  Message.route m = Some route →
  _broadcast_to_neighbors r s =
  (Ok tt, forwarded_to_all r m route (broadcast_targets s) s).
Proof.
  intros Htopo Hm Hroute.
  destruct (topology_ok_neighbors s Htopo) as (self & Hself & Hns & Hn).
  unfold _broadcast_to_neighbors. mstep (get_ok s).
  mstep (peers_at_ok s _ _ Hself). mstep (iter_neighbors_ok s _ _ Hns).
  apply broadcast_loop; [exact Hm | exact Hroute |].
  intros n Hin. apply Hn, Hin.
Qed.

Lemma broadcast_reaches_online_neighbors_witness :
  _broadcast_to_neighbors 0%nat relay_mesh_with_to_all =
  (Ok tt,
   forwarded_to_all 0%nat to_all ["n1"]
     (broadcast_targets relay_mesh_with_to_all) relay_mesh_with_to_all).
Proof.
  apply (broadcast_reaches_online_neighbors relay_mesh_with_to_all 0%nat
           to_all ["n1"]).
  - eexists _, ["n1"]. split; [reflexivity |]. split; [reflexivity |].
    intros n Hn. apply list_elem_of_singleton in Hn. subst n.
    split; [discriminate | eexists; reflexivity].
  - reflexivity.
  - reflexivity.
Defined.

(** ** A sweep of the peer monitor *)

Local Abbreviation monitor_body current_time :=
  (fun peer_id : string =>
     peer <- peers_at peer_id ;;
     s <- get ;;
     if negb (String.eqb peer_id (server_id s)) && Peer.is_online peer then
       if current_time - Peer.last_seen peer >? timeout then
         store_peer peer_id (Peer.set_is_online false peer) ;;;
         emit (LogPeerTimedOut (Peer.name peer) peer_id) ;;;
         _update_routing_table
       else ret tt
     else ret tt).

Lemma swept_offline self_id current_time k p :
  swept self_id current_time k (Peer.set_is_online false p) =
  Peer.set_is_online false p.
Proof.
  unfold swept, stale. cbn [Peer.is_online Peer.set_is_online].
  rewrite andb_false_r. reflexivity.
Qed.

Lemma swept_swept self_id current_time k p :
  swept self_id current_time k (swept self_id current_time k p) =
  swept self_id current_time k p.
Proof.
  unfold swept at 2 3. destruct (stale self_id current_time k p) eqn:Hst.
  - apply swept_offline.
  - unfold swept. rewrite Hst. reflexivity.
Qed.

Lemma monitor_step current_time k p s :
  topology_ok s →
  dict_get (peers s) k = Some p →
  ∃ s1,
    monitor_body current_time k s = (Ok tt, s1) ∧
    topology_ok s1 ∧
    server_id s1 = server_id s ∧
    peers s1 = (if stale (server_id s) current_time k p
                then dict_set (peers s) k (Peer.set_is_online false p)
                else peers s) ∧
    heap s1 = heap s ∧ messages s1 = messages s ∧
    message_queue s1 = message_queue s ∧
    (if stale (server_id s) current_time k p then routes_current s1
     else s1 = s) ∧
    (log s1 = log s ∨ ∃ name, log s1 = (log s ++ [LogPeerTimedOut name k])%list).
Proof.
  intros Htopo Hp.
  assert (Hbody :
    monitor_body current_time k s =
    if stale (server_id s) current_time k p
    then (store_peer k (Peer.set_is_online false p) ;;;
          emit (LogPeerTimedOut (Peer.name p) k) ;;;
          _update_routing_table) s
    else (Ok tt, s)).
  { cbv beta. mstep (peers_at_ok s k p Hp). mstep (get_ok s). unfold stale.
    destruct (negb (k =? server_id s)%string && Peer.is_online p);
      cbn [andb]; [|reflexivity].
    destruct (current_time - Peer.last_seen p >? timeout); reflexivity. }
  destruct (stale (server_id s) current_time k p).
  2:{ exists s. repeat split; auto. }
  revert Hbody.
  mstep (store_peer_ok k (Peer.set_is_online false p) s).
  rewrite (bind_ok _ _ _ _ _ (emit_ok _ _)).
  set (s0 := set_log _ _). intros Hbody.
  assert (Htopo0 : topology_ok s0)
    by (apply (topology_ok_store s k p); [exact Htopo | exact Hp | reflexivity]).
  destruct (topology_ok_neighbors s0 Htopo0) as (self & Hself & Hns & Hn).
  destruct (update_routing_table_spec s0 self _ Hself Hns Hn)
    as (rt' & Hrun & Hin & _).
  exists (set_routing_table rt' s0). split; [rewrite Hbody; exact Hrun |].
  split; [exact Htopo0 |]. repeat split.
  - intros q Hq Hne. apply Hin; assumption.
  - right. eexists. reflexivity.
Qed.

Lemma monitor_loop current_time ks : ∀ s,
  topology_ok s →
  (∀ k, k ∈ ks → is_Some (dict_get (peers s) k)) →
  ∃ s',
    for_each ks (monitor_body current_time) s = (Ok tt, s') ∧
    topology_ok s' ∧
    server_id s' = server_id s ∧
    (∀ k, dict_get (peers s') k =
          if bool_decide (k ∈ ks)
          then swept (server_id s) current_time k <$> dict_get (peers s) k
          else dict_get (peers s) k) ∧
    heap s' = heap s ∧ messages s' = messages s ∧
    message_queue s' = message_queue s ∧
    (s' = s ∨ routes_current s') ∧
    ((∀ k p, k ∈ ks → dict_get (peers s) k = Some p →
             stale (server_id s) current_time k p = false) → s' = s) ∧
    ∃ l, log s' = (log s ++ l)%list ∧
         Forall (fun e => ∃ name k, e = LogPeerTimedOut name k) l.
Proof.
  induction ks as [|k ks IH]; intros s Htopo Hreg.
  - exists s. cbn [for_each]. repeat split; auto.
    exists []. split; [symmetry; apply app_nil_r | constructor].
  - destruct (Hreg k) as [p Hp]; [left |].
    destruct (monitor_step current_time k p s Htopo Hp)
      as (s1 & Hrun1 & Htopo1 & Hid1 & Hpeers1 & Hh1 & Hm1 & Hq1 & Hcase1
          & Hlog1).
    assert (Hget1 : ∀ j, dict_get (peers s1) j =
                         if String.eqb k j
                         then Some (swept (server_id s) current_time k p)
                         else dict_get (peers s) j).
    { intros j. rewrite Hpeers1. unfold swept.
      destruct (stale (server_id s) current_time k p).
      - apply dict_get_set.
      - destruct (String.eqb_spec k j) as [<-|]; [exact Hp | reflexivity]. }
    destruct (IH s1 Htopo1) as
      (s' & Hrun & Htopo' & Hid & Hpeers & Hh & Hm & Hq & Hcur & Hnone
         & l & Hlog & Hl).
    { intros j Hj. rewrite Hget1.
      destruct (String.eqb k j); [eexists; reflexivity |].
      apply Hreg. right. exact Hj. }
    exists s'. cbn [for_each]. mstep Hrun1.
    split; [exact Hrun |]. split; [exact Htopo' |].
    split; [congruence |]. split.
    { intros j. rewrite Hpeers, Hid1, Hget1.
      destruct (String.eqb_spec k j) as [<-|Hkj].
      - rewrite Hp. rewrite (bool_decide_eq_true_2 (k ∈ k :: ks)) by left.
        cbn [fmap option_fmap option_map].
        destruct (bool_decide (k ∈ ks)); [|reflexivity].
        apply f_equal, swept_swept.
      - destruct (decide (j ∈ ks)) as [Hj|Hj].
        + rewrite !bool_decide_eq_true_2; [reflexivity | right; exact Hj | exact Hj].
        + rewrite !bool_decide_eq_false_2; [reflexivity | | exact Hj].
          intros Hj'. apply elem_of_cons in Hj' as [->|Hj']; contradiction. }
    split; [congruence |]. split; [congruence |]. split; [congruence |].
    split.
    { destruct (stale (server_id s) current_time k p).
      - right. destruct Hcur as [->|Hcur]; assumption.
      - subst s1. exact Hcur. }
    split.
    { intros Hfresh.
      rewrite (Hfresh k p (list_elem_of_here _ _) Hp) in Hcase1. subst s1.
      apply Hnone. intros j q Hj Hq'.
      apply (Hfresh j q); [right; exact Hj | exact Hq']. }
    destruct Hlog1 as [E|[name E]].
    + exists l. split; [congruence | exact Hl].
    + exists (LogPeerTimedOut name k :: l). split.
      * rewrite Hlog, E, <- app_assoc. reflexivity.
      * constructor; [eexists _, _; reflexivity | exact Hl].
Qed.

(** X10.  On a well-formed topology a sweep of the monitor returns.  It
    marks offline exactly the peers other than the local node that are
    online and were last seen more than 30 time units before the sweep, and
    leaves every other field of every record, the heap, the store and the
    queue as they are.  When it marks a peer the routing table it leaves is
    the one recomputed from the registry as swept, and when no peer is
    stale the state is unchanged. *)
Theorem monitor_sweep s current_time :
  topology_ok s →
  ∃ s',
    _peer_monitor current_time s = (Ok tt, s') ∧
    (∀ k, dict_get (peers s') k =
          swept (server_id s) current_time k <$> dict_get (peers s) k) ∧
    heap s' = heap s ∧ messages s' = messages s ∧
    message_queue s' = message_queue s ∧
    (s' = s ∨ routes_current s') ∧
    ((∀ k p, dict_get (peers s) k = Some p →
             stale (server_id s) current_time k p = false) → s' = s).
Proof.
  intros Htopo.
  destruct (monitor_loop current_time (dict_keys (peers s)) s Htopo)
    as (s' & Hrun & _ & _ & Hpeers & Hh & Hm & Hq & Hcur & Hnone & _).
  { intros k Hk. apply dict_get_keys, Hk. }
  exists s'. split.
  { unfold _peer_monitor. mstep (get_ok s). exact Hrun. }
  split.
  { intros k. rewrite Hpeers. case_bool_decide as Hk; [reflexivity |].
    destruct (dict_get (peers s) k) eqn:E; [|reflexivity].
    exfalso. apply Hk, dict_get_keys. eexists; exact E. }
  repeat split; try assumption.
  intros Hfresh. apply Hnone. intros k p _. apply Hfresh.
Qed.

Lemma monitor_sweep_witness :
  ∃ s',
    _peer_monitor 100 node_with_peer = (Ok tt, s') ∧
    (∀ k, dict_get (peers s') k =
          swept (server_id node_with_peer) 100 k
            <$> dict_get (peers node_with_peer) k) ∧
    heap s' = heap node_with_peer ∧ messages s' = messages node_with_peer ∧
    message_queue s' = message_queue node_with_peer ∧
    (s' = node_with_peer ∨ routes_current s') ∧
    ((∀ k p, dict_get (peers node_with_peer) k = Some p →
             stale (server_id node_with_peer) 100 k p = false) →
     s' = node_with_peer).
Proof.
  apply (monitor_sweep node_with_peer 100).
  eexists _, []. split; [reflexivity |]. split; [reflexivity |].
  intros n Hn. inversion Hn.
Defined.

(** ** What a reachable node never does *)

Lemma quiet_log l l' h q :
  quiet l h q → Forall (fun e => calm e = true) l' → quiet (l ++ l') h q.
Proof.
  intros (Hl & Hrest) Hl'. split; [|exact Hrest].
  apply Forall_app. split; assumption.
Qed.

Lemma quiet_alloc l h q m : quiet l h q → pristine m → quiet l (h ++ [m]) q.
Proof.
  intros (Hl & Hh & Hnd & Hq) Hm. split; [exact Hl |]. split.
  - apply Forall_app. split; [exact Hh | constructor; [exact Hm | constructor]].
  - split; [exact Hnd |]. intros r Hr. destruct (Hq r Hr) as (m' & Hm' & Httl).
    exists m'. split; [apply lookup_app_l_Some, Hm' | exact Httl].
Qed.

Lemma quiet_enqueue l h q m :
  quiet l h q → pristine m → Message.ttl m = default_ttl →
  quiet l (h ++ [m]) (q ++ [length h]).
Proof.
  intros Hquiet Hm Httl.
  destruct (quiet_alloc l h q m Hquiet Hm) as (Hl & Hh & Hnd & Hq).
  split; [exact Hl |]. split; [exact Hh |]. split.
  - apply NoDup_app. split; [exact Hnd |]. split; [|apply NoDup_singleton].
    intros r Hr Hr'. apply list_elem_of_singleton in Hr'. subst r.
    destruct Hquiet as (_ & _ & _ & Hq0).
    destruct (Hq0 _ Hr) as (m' & Hm' & _).
    apply lookup_lt_Some in Hm'. lia.
  - intros r Hr. apply elem_of_app in Hr as [Hr|Hr]; [apply Hq, Hr |].
    apply list_elem_of_singleton in Hr. subst r.
    exists m. split; [apply list_lookup_middle; reflexivity | exact Httl].
Qed.

Lemma quiet_drain l h r rest :
  quiet l h (r :: rest) →
  ∃ m, h !! r = Some m ∧ Message.ttl m = default_ttl ∧
       quiet l (<[r := Message.set_ttl (Message.ttl m - 1) m]> h) rest.
Proof.
  intros (Hl & Hh & Hnd & Hq).
  destruct (Hq r) as (m & Hm & Httl); [left |].
  exists m. split; [exact Hm |]. split; [exact Httl |].
  apply NoDup_cons in Hnd as [Hr Hnd].
  split; [exact Hl |]. split.
  - apply Forall_insert; [exact Hh |].
    rewrite Forall_forall in Hh.
    destruct (Hh m) as [Hroute _]; [eapply list_elem_of_lookup_2, Hm |].
    split; [exact Hroute |]. right. cbn [Message.ttl Message.set_ttl].
    rewrite Httl. reflexivity.
  - split; [exact Hnd |]. intros r' Hr'.
    destruct (Hq r') as (m' & Hm' & Httl'); [right; exact Hr' |].
    exists m'. split; [|exact Httl'].
    rewrite list_lookup_insert_ne; [exact Hm' |].
    intros ->. contradiction.
Qed.

Lemma update_routing_table_frame s :
  ∃ rt, snd (_update_routing_table s) = set_routing_table rt s.
Proof.
  apply (keeps_from (fun s' => ∃ rt, s' = set_routing_table rt s)).
  - apply keeps_update_routing_table. intros rt s' [rt0 ->].
    exists rt. reflexivity.
  - exists (routing_table s). symmetry. apply set_routing_table_same.
Qed.

Lemma next_hop_no_neighbors s d :
  no_neighbors s →
  _get_next_hop d s = (Ok None, s) ∨ _get_next_hop d s = (Raise ValueError, s).
Proof.
  intros (_ & _ & Hrt). unfold _get_next_hop. mred.
  destruct (dict_get (routing_table s) d) as [c|] eqn:Hd; [|left; reflexivity].
  rewrite (Hrt d c Hd). right. reflexivity.
Qed.

Lemma bind_raise {A B} (m : M A) (k : A → M B) s e s' :
  m s = (Raise e, s') → bind m k s = (Raise e, s').
Proof. intros H. unfold bind. rewrite H. reflexivity. Qed.

Lemma handle_incoming_run s r m uuid now :
  heap s !! r = Some m →
  let s1 :=
    set_log (log s ++ [LogReceived (Message.sender_id m) (Message.content m)])
      (set_heap (heap s ++ [ack_for s m uuid now]) s) in
  _handle_incoming_message r uuid now s =
  match fst (_get_next_hop (Message.sender_id m) s) with
  | Ok (Some h) =>
      if truthy h
      then (Ok tt, set_log (log s1 ++ [LogForwarding uuid h]) s1)
      else (Ok tt, s1)
  | Ok None => (Ok tt, s1)
  | Raise e => (Raise e, s1)
  end.
Proof.
  intros Hm s1. unfold _handle_incoming_message. mstep (deref_ok s r m Hm).
  mstep (emit_ok (LogReceived (Message.sender_id m) (Message.content m)) s).
  mstep (get_ok (set_log (log s ++ [LogReceived (Message.sender_id m)
                                      (Message.content m)]) s)).
  state_simpl. fold (ack_for s m uuid now).
  rewrite (bind_ok _ _ _ _ _ (alloc_ok (ack_for s m uuid now) _)).
  state_simpl.
  change (set_heap (heap s ++ [ack_for s m uuid now])
            (set_log (log s ++ [LogReceived (Message.sender_id m)
                                  (Message.content m)]) s)) with s1.
  unfold bind at 1.
  rewrite (get_next_hop_frame (Message.sender_id m) s s1 eq_refl).
  destruct (fst (_get_next_hop (Message.sender_id m) s)) as [[h|]|e];
    try reflexivity.
  destruct (truthy h); [|reflexivity].
  apply (forward_own_message s1 (length (heap s)) (ack_for s m uuid now) h).
  - unfold s1. state_simpl. apply list_lookup_middle. reflexivity.
  - reflexivity.
Qed.

(** On a node without neighbors the dispatch forwards nothing: it logs
    calm events only and creates at most the acknowledgment. *)
Lemma dispatch_no_neighbors s r m uuid now :
  no_neighbors s →
  heap s !! r = Some m →
  let s' := snd (try_except (route_by_recipient r uuid now)
                   (fun _ => emit LogProcessorError) s) in
  ∃ evs acks,
    log s' = (log s ++ evs)%list ∧ Forall (fun e => calm e = true) evs ∧
    heap s' = (heap s ++ acks)%list ∧ Forall pristine acks ∧
    message_queue s' = message_queue s.
Proof.
  intros Hinv Hm s'. subst s'. unfold try_except, route_by_recipient.
  mstep (deref_ok s r m Hm). mstep (get_ok s).
  destruct (Message.recipient_id m) as [recipient|].
  - destruct (String.eqb recipient (server_id s)).
    + rewrite (handle_incoming_run s r m uuid now Hm).
      destruct (next_hop_no_neighbors s (Message.sender_id m) Hinv) as [E|E];
        rewrite E; cbn [fst].
      * exists [LogReceived (Message.sender_id m) (Message.content m)],
          [ack_for s m uuid now].
        repeat split; try reflexivity; repeat constructor.
      * exists [LogReceived (Message.sender_id m) (Message.content m);
                LogProcessorError], [ack_for s m uuid now].
        unfold emit, modify. state_simpl.
        split; [rewrite <- app_assoc; reflexivity |].
        repeat split; try reflexivity; repeat constructor.
    + destruct (next_hop_no_neighbors s recipient Hinv) as [E|E].
      * mstep E. exists [LogNoRoute recipient], [].
        unfold emit, modify. state_simpl.
        repeat split; try reflexivity; repeat constructor.
        symmetry. apply app_nil_r.
      * rewrite (bind_raise _ _ _ _ _ E). exists [LogProcessorError], [].
        unfold emit, modify. state_simpl.
        repeat split; try reflexivity; repeat constructor.
        symmetry. apply app_nil_r.
  - destruct Hinv as (Hnb & [self Hself] & _).
    unfold _broadcast_to_neighbors. mstep (get_ok s).
    mstep (peers_at_ok s _ _ Hself).
    mstep (iter_neighbors_ok s _ _ (Hnb _ _ Hself)).
    exists [], []. cbn [for_each ret fst snd].
    repeat split; try constructor; symmetry; apply app_nil_r.
Qed.

Lemma quiet_node_components s s' l :
  quiet_node s →
  log s' = (log s ++ l)%list → Forall (fun e => calm e = true) l →
  heap s' = heap s → message_queue s' = message_queue s →
  quiet_node s'.
Proof.
  unfold quiet_node. intros H -> Hl -> ->. apply quiet_log; assumption.
Qed.

Lemma traffic_kept_by_recomputation s :
  let s' := snd ((_update_routing_table ;;; ret true) s) in
  log s' = log s ∧ heap s' = heap s ∧ message_queue s' = message_queue s.
Proof.
  apply (keeps_from (fun s' => log s' = log s ∧ heap s' = heap s ∧
                               message_queue s' = message_queue s));
    [|repeat split].
  repeat first [apply keeps_update_routing_table; intros ? ? E; exact E
               | keeps_step].
Qed.

Lemma quiet_alloc_all l q acks : ∀ h,
  quiet l h q → Forall pristine acks → quiet l (h ++ acks) q.
Proof.
  induction acks as [|a acks IH]; intros h Hquiet Hacks.
  - rewrite app_nil_r. exact Hquiet.
  - apply Forall_cons in Hacks as [Ha Hacks].
    rewrite (cons_middle a h acks), app_assoc.
    apply IH; [apply quiet_alloc; assumption | exact Hacks].
Qed.

Lemma run_quiet o s : reachable s → quiet_node s → quiet_node (run o s).
Proof.
  intros Hreach Hquiet. pose proof (reachable_invariant s Hreach) as Hinv.
  destruct o; cbn [run].
  - (* register_peer *)
    rewrite register_peer_unfold.
    set (old := dict_get (peers s) peer_id).
    assert (Hev : Forall (fun e => calm e = true)
                    [registered_event old peer_id peer_name])
      by (destruct old; repeat constructor).
    unfold _broadcast_peer_discovery. mred.
    destruct (forallb json_serialisable _); unfold quiet_node; state_simpl.
    + apply quiet_log; [|exact Hev].
      apply quiet_enqueue; [exact Hquiet | | reflexivity].
      split; [reflexivity | left; reflexivity].
    + apply quiet_log; assumption.
  - (* unregister_peer *)
    unfold unregister_peer. mstep (get_ok s).
    destruct (dict_get (peers s) peer_id) as [p|]; [|exact Hquiet].
    rewrite (bind_ok _ _ _ _ _ (store_peer_ok _ _ _)).
    rewrite (bind_ok _ _ _ _ _ (emit_ok _ _)).
    set (s1 := set_log _ _).
    destruct (traffic_kept_by_recomputation s1) as (El & Eh & Eq).
    apply (quiet_node_components s _ [LogUnregisteredPeer (Peer.name p) peer_id]);
      [exact Hquiet | rewrite El; reflexivity | repeat constructor
      | rewrite Eh; reflexivity | rewrite Eq; reflexivity].
  - (* send_message *)
    unfold send_message. mred. unfold quiet_node. state_simpl.
    apply quiet_log; [|repeat constructor].
    apply quiet_enqueue; [exact Hquiet | | reflexivity].
    split; [reflexivity | left; reflexivity].
  - (* broadcast_message *)
    unfold broadcast_message. mred. unfold quiet_node. state_simpl.
    apply quiet_log; [|repeat constructor].
    apply quiet_enqueue; [exact Hquiet | | reflexivity].
    split; [reflexivity | left; reflexivity].
  - exact Hquiet.
  - (* start *)
    apply (quiet_node_components s _ [LogStarting; LogStarted]);
      [exact Hquiet | | repeat constructor | reflexivity | reflexivity].
    unfold start. mred. rewrite <- app_assoc. reflexivity.
  - (* stop *)
    apply (quiet_node_components s _ [LogStopped]);
      [exact Hquiet | reflexivity | repeat constructor
      | reflexivity | reflexivity].
  - (* _message_processor *)
    unfold _message_processor. mstep (get_ok s).
    destruct (message_queue s) as [|r rest] eqn:Hq; [exact Hquiet |].
    rewrite (bind_ok _ _ _ _ _ (eq_refl : modify (set_message_queue rest) s
                                          = (Ok tt, set_message_queue rest s))).
    unfold quiet_node in Hquiet. rewrite Hq in Hquiet.
    destruct (quiet_drain _ _ _ _ Hquiet) as (m & Hm & Httl & Hrest).
    set (s0 := set_message_queue rest s).
    assert (Hlive : 0 < Message.ttl m) by (rewrite Httl; reflexivity).
    assert (Hstep : try_except (_route_message r uuid now)
                      (fun _ => emit LogProcessorError) s0 =
                    try_except (route_by_recipient r uuid now)
                      (fun _ => emit LogProcessorError)
                      (set_heap (<[r := Message.set_ttl (Message.ttl m - 1) m]>
                                   (heap s0)) s0)).
    { unfold try_except.
      rewrite (route_message_live s0 r m uuid now Hm Hlive). reflexivity. }
    rewrite Hstep.
    set (s1 := set_heap _ s0).
    destruct (dispatch_no_neighbors s1 r
                (Message.set_ttl (Message.ttl m - 1) m) uuid now)
      as (evs & acks & El & Hevs & Eh & Hacks & Eq).
    { exact Hinv. }
    { unfold s1. state_simpl. apply list_lookup_insert_eq.
      eapply lookup_lt_Some, Hm. }
    unfold quiet_node. rewrite El, Eh, Eq. unfold s1, s0. state_simpl.
    apply quiet_log; [|exact Hevs].
    apply quiet_alloc_all; assumption.
  - (* _peer_monitor *)
    destruct (monitor_loop current_time (dict_keys (peers s)) s
                (reachable_topology_ok s Hreach))
      as (s' & Hrun & _ & _ & _ & Eh & _ & Eq & _ & _ & l & El & Hl).
    { intros k Hk. apply dict_get_keys, Hk. }
    assert (E : _peer_monitor current_time s = (Ok tt, s'))
      by (unfold _peer_monitor; mstep (get_ok s); exact Hrun).
    rewrite E. apply (quiet_node_components s s' l); try assumption.
    eapply Forall_impl; [exact Hl |].
    intros e (name & k & ->). reflexivity.
  - (* _route_updater *)
    destruct (update_routing_table_frame s) as [rt E].
    unfold _route_updater. rewrite E. exact Hquiet.
Qed.

Lemma reachable_quiet s : reachable s → quiet_node s.
Proof.
  induction 1 as [id name uuid now | s o Hs IH].
  - unfold quiet_node, __init__. state_simpl.
    split; [repeat constructor |]. split; [constructor |].
    split; [constructor |]. intros r Hr. inversion Hr.
  - apply run_quiet; assumption.
Qed.

(** X11.  A node in a reachable state has never forwarded a message: the
    log holds no forward, and every message, queued, processed or
    synthesized, still has the route it was created with, which is its
    sender alone. *)
Theorem reachable_never_forwards s :
  reachable s →
  (∀ message_id next_hop, LogForwarding message_id next_hop ∉ log s) ∧
  (∀ r m, heap s !! r = Some m →
          Message.route m = Some [Message.sender_id m]).
Proof.
  intros Hreach. destruct (reachable_quiet s Hreach) as (Hl & Hh & _).
  split.
  - intros message_id next_hop Hin. rewrite Forall_forall in Hl.
    specialize (Hl _ Hin). discriminate Hl.
  - intros r m Hm. rewrite Forall_forall in Hh.
    apply Hh. eapply list_elem_of_lookup_2, Hm.
Qed.

Lemma reachable_never_forwards_witness :
  (∀ message_id next_hop,
     LogForwarding message_id next_hop ∉ log node_after_hello) ∧
  (∀ r m, heap node_after_hello !! r = Some m →
          Message.route m = Some [Message.sender_id m]).
Proof.
  apply (reachable_never_forwards node_after_hello).
  unfold node_after_hello, node_with_hello, node_with_routes, node_with_peer,
    node.
  do 4 constructor. constructor.
Defined.

(** X12.  On a node in a reachable state no TTL ever runs out.  The queue
    holds distinct messages, each with the initial TTL of 10; a message is
    drained at most once, so every message has TTL 10 or 9; and no expiry
    has been logged. *)
Theorem reachable_ttl_never_expires s :
  reachable s →
  NoDup (message_queue s) ∧
  (∀ r, r ∈ message_queue s →
        ∃ m, heap s !! r = Some m ∧ Message.ttl m = 10) ∧
  (∀ r m, heap s !! r = Some m → Message.ttl m = 10 ∨ Message.ttl m = 9) ∧
  (∀ message_id, LogTTLExpired message_id ∉ log s).
Proof.
  intros Hreach. destruct (reachable_quiet s Hreach) as (Hl & Hh & Hnd & Hq).
  split; [exact Hnd |]. split; [exact Hq |]. split.
  - intros r m Hm. rewrite Forall_forall in Hh.
    apply Hh. eapply list_elem_of_lookup_2, Hm.
  - intros message_id Hin. rewrite Forall_forall in Hl.
    specialize (Hl _ Hin). discriminate Hl.
Qed.

Lemma reachable_ttl_never_expires_witness :
  NoDup (message_queue node_with_hello) ∧
  (∀ r, r ∈ message_queue node_with_hello →
        ∃ m, heap node_with_hello !! r = Some m ∧ Message.ttl m = 10) ∧
  (∀ r m, heap node_with_hello !! r = Some m →
          Message.ttl m = 10 ∨ Message.ttl m = 9) ∧
  (∀ message_id, LogTTLExpired message_id ∉ log node_with_hello).
Proof.
  apply (reachable_ttl_never_expires node_with_hello).
  unfold node_with_hello, node_with_routes, node_with_peer, node.
  do 3 constructor. constructor.
Defined.

(** ** The choice among candidates *)

Lemma min_by_cost_from_first items : ∀ best,
  let r := min_by_cost_from best items in
  ∃ pre post,
    best :: items = (pre ++ r :: post)%list ∧
    (∀ x, x ∈ pre → snd r < snd x) ∧
    (∀ x, x ∈ post → snd r ≤ snd x).
Proof.
  induction items as [|y items IH]; intros best; cbn [min_by_cost_from].
  - exists [], []. split; [reflexivity |].
    split; intros x Hx; inversion Hx.
  - destruct (Z.ltb_spec (snd y) (snd best)) as [Hlt|Hge].
    + specialize (IH y). cbv zeta in IH |- *.
      remember (min_by_cost_from y items) as r eqn:Hr. clear Hr.
      destruct IH as (pre & post & E & Hpre & Hpost).
      exists (best :: pre), post. split; [rewrite E; reflexivity |].
      split; [|exact Hpost].
      intros x Hx. apply elem_of_cons in Hx as [->|Hx]; [|apply Hpre, Hx].
      destruct pre as [|z pre].
      * injection E as E _. rewrite <- E. exact Hlt.
      * injection E as E _. subst z.
        specialize (Hpre y (list_elem_of_here _ _)). lia.
    + specialize (IH best). cbv zeta in IH |- *.
      remember (min_by_cost_from best items) as r eqn:Hr. clear Hr.
      destruct IH as (pre & post & E & Hpre & Hpost).
      destruct pre as [|z pre].
      * injection E as E1 E2. exists [], (y :: post).
        split; [rewrite <- E1, E2; reflexivity |].
        split; [intros x Hx; inversion Hx |].
        intros x Hx. apply elem_of_cons in Hx as [->|Hx]; [|apply Hpost, Hx].
        rewrite <- E1. lia.
      * injection E as E1 E2. subst z.
        exists (best :: y :: pre), post.
        split; [rewrite E2; reflexivity |]. split; [|exact Hpost].
        pose proof (Hpre best (list_elem_of_here _ _)) as Hbest.
        intros x Hx. apply elem_of_cons in Hx as [->|Hx]; [exact Hbest |].
        apply elem_of_cons in Hx as [->|Hx]; [lia |].
        apply Hpre. right. exact Hx.
Qed.

(** X13.  For a destination whose candidate map is not empty, the lookup
    returns, writes nothing, and yields the candidate of least cost; among
    candidates of equal least cost it yields the one inserted first. *)
Theorem next_hop_is_first_minimum s destination candidates :
  dict_get (routing_table s) destination = Some candidates →
  candidates ≠ [] →
  ∃ hop cost pre post,
    _get_next_hop destination s = (Ok (Some hop), s) ∧
    candidates = (pre ++ (hop, cost) :: post)%list ∧
    (∀ x, x ∈ pre → cost < snd x) ∧
    (∀ x, x ∈ post → cost ≤ snd x).
Proof.
  intros Hd Hne. unfold _get_next_hop. mred. rewrite Hd.
  destruct candidates as [|x items]; [contradiction |]. cbn [min_by_cost].
  destruct (min_by_cost_from_first items x) as (pre & post & E & Hpre & Hpost).
  destruct (min_by_cost_from x items) as [hop cost].
  exists hop, cost, pre, post. auto.
Qed.

Lemma next_hop_is_first_minimum_witness :
  ∃ hop cost pre post,
    _get_next_hop "far" relay_mesh_with_to_far
      = (Ok (Some hop), relay_mesh_with_to_far) ∧
    [("n1", 2)] = (pre ++ (hop, cost) :: post)%list ∧
    (∀ x, x ∈ pre → cost < snd x) ∧
    (∀ x, x ∈ post → cost ≤ snd x).
Proof.
  apply (next_hop_is_first_minimum relay_mesh_with_to_far "far" [("n1", 2)]).
  - reflexivity.
  - discriminate.
Defined.

(** ** A neighbor that never registered *)

Lemma for_each_app {A} (l1 l2 : list A) (body : A → M unit) s s1 :
  for_each l1 body s = (Ok tt, s1) →
  for_each (l1 ++ l2) body s = for_each l2 body s1.
Proof.
  revert s. induction l1 as [|x l1 IH]; intros s H; cbn [for_each app] in *.
  - injection H as <-. reflexivity.
  - unfold bind in *. destruct (body x s) as [[[]|e] s'].
    + apply IH, H.
    + discriminate H.
Qed.

(** X14.  When the neighbor set of the local node names a peer that is not
    in the registry, and the neighbors before it in iteration order are
    registered peers other than the local node, the recomputation raises
    [KeyError] for that neighbor: it does not return, and the routes of the
    peers that are not neighbors are not computed. *)
Theorem recomputation_raises_on_unregistered_neighbor s self pre ghost post :
  dict_get (peers s) (server_id s) = Some self →
  Peer.neighbors self = Some (pre ++ ghost :: post)%list →
  (∀ n, n ∈ pre → n ≠ server_id s ∧ is_Some (dict_get (peers s) n)) →
  dict_get (peers s) ghost = None →
  fst (_update_routing_table s) = Raise (KeyError ghost).
Proof.
  intros Hself Hns Hpre Hghost.
  destruct (reset_loop_spec (server_id s) (dict_keys (peers s)) s)
    as (rt1 & H1 & G1).
  destruct (direct_loop_spec pre (set_routing_table rt1 s)) as (rt2 & H2 & _).
  { intros n Hn. apply Hpre, Hn. }
  { intros n Hn. state_simpl. rewrite G1.
    destruct (Hpre n Hn) as [Hne Hn']. apply dict_get_keys in Hn'.
    rewrite bool_decide_eq_true_2 by (split; assumption).
    eexists; reflexivity. }
  rewrite set_routing_table_twice in H2.
  unfold _update_routing_table.
  mstep (get_ok s). mstep H1.
  mstep (peers_at_ok (set_routing_table rt1 s) _ _ Hself).
  mstep (iter_neighbors_ok (set_routing_table rt1 s) _ _ Hns).
  unfold bind at 1. rewrite (for_each_app _ _ _ _ _ H2).
  cbn [for_each]. mred. rewrite Hghost. reflexivity.
Qed.

Lemma recomputation_raises_on_unregistered_neighbor_witness :
  fst (_update_routing_table relay_mesh_with_ghost) = Raise (KeyError "ghost").
Proof.
  apply (recomputation_raises_on_unregistered_neighbor relay_mesh_with_ghost
           (Peer.mk "node" "MeshServer" "localhost" 0 true
              (Some ["n1"; "ghost"])) ["n1"] "ghost" []).
  - reflexivity.
  - reflexivity.
  - intros n Hn. apply list_elem_of_singleton in Hn. subst n.
    split; [discriminate | eexists; reflexivity].
  - reflexivity.
Defined.
